(** * Internal-link extraction, graph construction and Mermaid rendering

    A shallow embedding of [visualize_internal_links/main.py]: the helper
    [get_text], the filter [is_internal_and_not_image], [extract_content],
    the graph-building loop of [create_network_graph] and
    [generate_mermaid_diagram], together with the fragments of the Python
    libraries they call ([re.findall], [xml.etree.ElementTree],
    [networkx.DiGraph], [dict]). *)

From Stdlib Require Import String Ascii List Bool Arith Lia Permutation.
From Stdlib Require Import DecimalString DecimalNat.
Import ListNotations.

Local Open Scope list_scope.
Local Open Scope string_scope.

(** ** Python values and exceptions *)

(** [Element.text] and everything computed from it is either a [str] or
    [None]; [None] is Rocq's [None], a [str] is [Some s].  Strings are byte
    strings: a non-ASCII code point is a run of bytes above 127, none of
    which belongs to a character class of the pattern below. *)
Definition text := option string.

Inductive exn := TypeError | ValueError | KeyError | SyntaxError.

Inductive result (A : Type) :=
| Ok (a : A)
| Raise (e : exn).
Arguments Ok {A} a.
Arguments Raise {A} e.

Definition bind {A B} (m : result A) (k : A -> result B) : result B :=
  match m with
  | Ok a => k a
  | Raise e => Raise e
  end.

Notation "x <- m ;; k" := (bind m (fun x => k))
  (at level 61, m at next level, right associativity).
Notation "' p <- m ;; k" := (bind m (fun x => let p := x in k))
  (at level 61, p pattern, m at next level, right associativity).

(** A [for] loop whose body may raise: the first exception ends the loop. *)
Fixpoint for_each {A S} (body : A -> S -> result S) (xs : list A) (s : S)
  : result S :=
  match xs with
  | [] => Ok s
  | x :: xs' => s' <- body x s ;; for_each body xs' s'
  end.

(** ** Strings: [in], [endswith], f-string formatting *)

Module Str.

(** [strip_prefix p s] is [Some r] exactly when [s = p ++ r]. *)
Fixpoint strip_prefix (p s : string) : option string :=
  match p with
  | EmptyString => Some s
  | String a p' =>
      match s with
      | EmptyString => None
      | String b s' => if Ascii.eqb a b then strip_prefix p' s' else None
      end
  end.

Definition startswith (s p : string) : bool :=
  match strip_prefix p s with Some _ => true | None => false end.

(** [sub in s] for two [str]. *)
Fixpoint contains (sub s : string) : bool :=
  if startswith s sub then true
  else match s with
       | EmptyString => false
       | String _ s' => contains sub s'
       end.

(** [s.endswith(suffix)]. *)
Fixpoint endswith (s suffix : string) : bool :=
  if String.eqb s suffix then true
  else match s with
       | EmptyString => false
       | String _ s' => endswith s' suffix
       end.

(** [s[n:]]. *)
Fixpoint drop (n : nat) (s : string) : string :=
  match n, s with
  | O, _ => s
  | S _, EmptyString => EmptyString
  | S k, String _ s' => drop k s'
  end.

(** [str(n)] for a non-negative [int]. *)
Definition of_nat (n : nat) : string :=
  NilEmpty.string_of_uint (Nat.to_uint n).

(** [f"{t}"]: a [str] is rendered as it is, [None] as its name. *)
Definition format (t : text) : string :=
  match t with
  | Some s => s
  | None => "None"
  end.

(** The specification-level relations the boolean tests decide. *)
Definition is_prefix (p s : string) : Prop := exists post, s = p ++ post.
Definition is_suffix (x s : string) : Prop := exists pre, s = pre ++ x.
Definition is_substring (sub s : string) : Prop :=
  exists pre post, s = pre ++ sub ++ post.

End Str.

(** ** [re.findall] for the URL pattern

    The pattern of [extract_content] is
    [http[s]?://(?:[a-zA-Z]|[0-9]|[$-_@.&+]|[!*\(\),]|(?:%[0-9a-fA-F][0-9a-fA-F]))+]
    (the source escapes the backslashes, so the class is [[!*\(\),]]). *)

Module Re.

Definition in_range (lo hi c : ascii) : bool :=
  Nat.leb (nat_of_ascii lo) (nat_of_ascii c)
  && Nat.leb (nat_of_ascii c) (nat_of_ascii hi).

Definition one_of (cs : list ascii) (c : ascii) : bool :=
  existsb (Ascii.eqb c) cs.

(** [[a-zA-Z]] *)
Definition alt_letter (c : ascii) : bool :=
  in_range "a" "z" c || in_range "A" "Z" c.

(** [[0-9]] *)
Definition alt_digit (c : ascii) : bool := in_range "0" "9" c.

(** [[$-_@.&+]]: inside a class [$-_] is the range from [$] to [_]. *)
Definition alt_punct (c : ascii) : bool :=
  in_range "$" "_" c || one_of ["@"; "."; "&"; "+"]%char c.

(** [[!*\(\),]] *)
Definition alt_paren (c : ascii) : bool :=
  one_of ["!"; "*"; "("; ")"; ","]%char c.

(** [[0-9a-fA-F]] *)
Definition hex (c : ascii) : bool :=
  in_range "0" "9" c || in_range "a" "f" c || in_range "A" "F" c.

(** The repeated group [(?:...)+], greedy: at every iteration the
    alternatives are tried from left to right, the first four consume one
    character and the fifth, a percent escape, three.  Nothing follows the
    group in the pattern, so the engine never backtracks into it, and the
    result is the text the iterations consumed (empty when there was none). *)
Fixpoint group_star (s : string) : string :=
  match s with
  | EmptyString => EmptyString
  | String c s1 =>
      if alt_letter c || alt_digit c || alt_punct c || alt_paren c
      then String c (group_star s1)
      else if Ascii.eqb c "%" then
        match s1 with
        | String h1 s2 =>
            match s2 with
            | String h2 s3 =>
                if hex h1 && hex h2
                then String c (String h1 (String h2 (group_star s3)))
                else EmptyString
            | EmptyString => EmptyString
            end
        | EmptyString => EmptyString
        end
      else EmptyString
  end.

(** The characters one iteration of the group can start with through its
    first four alternatives, and the longest run of them. *)
Definition class_char (c : ascii) : bool :=
  alt_letter c || alt_digit c || alt_punct c || alt_paren c.

Fixpoint run (s : string) : string :=
  match s with
  | EmptyString => EmptyString
  | String c s' => if class_char c then String c (run s') else EmptyString
  end.

(** [://] followed by at least one iteration of the group. *)
Definition scheme_tail (s : string) : option string :=
  match Str.strip_prefix "://" s with
  | None => None
  | Some r =>
      match group_star r with
      | EmptyString => None
      | m => Some ("://" ++ m)
      end
  end.

(** A match of the whole pattern starting at the first character of [s]:
    [http], then the optional [s] (greedy: taken when present, given back
    when the rest then fails), then [scheme_tail]. *)
Definition match_at (s : string) : option string :=
  match Str.strip_prefix "http" s with
  | None => None
  | Some r =>
      match r with
      | String "s"%char r' =>
          match scheme_tail r' with
          | Some m => Some ("https" ++ m)
          | None =>
              match scheme_tail r with
              | Some m => Some ("http" ++ m)
              | None => None
              end
          end
      | _ =>
          match scheme_tail r with
          | Some m => Some ("http" ++ m)
          | None => None
          end
      end
  end.

(** The scan of [findall]: non-overlapping matches from left to right.
    [skip] counts the characters of the last match still to be passed over;
    with [skip = 0] a match is tried at the current position, and the scan
    moves one character on when there is none. *)
Fixpoint findall_from (skip : nat) (s : string) : list string :=
  match s with
  | EmptyString => []
  | String _ s' =>
      match skip with
      | S k => findall_from k s'
      | O =>
          match match_at s with
          | Some m => m :: findall_from (String.length m - 1) s'
          | None => findall_from 0 s'
          end
      end
  end.

Definition findall_str (s : string) : list string := findall_from 0 s.

(** [re.findall(pattern, content)]: a [None] subject is a [TypeError]
    (expected string or bytes-like object). *)
Definition findall (content : text) : result (list string) :=
  match content with
  | None => Raise TypeError
  | Some s => Ok (findall_str s)
  end.

End Re.

(** ** Constants and helpers of the module *)

Definition DOMAIN : string := "helpedbyanerd.com".

Definition image_extensions : list string :=
  [".jpg"; ".jpeg"; ".png"; ".gif"; ".webp"; ".mp4"].

(** [DOMAIN in url and not any(url.endswith(ext) for ext in image_extensions)] *)
Definition is_internal_and_not_image (url : string) : bool :=
  Str.contains DOMAIN url && negb (existsb (Str.endswith url) image_extensions).

(** The comprehension
    [[url for url in urls if is_internal_and_not_image(url) and "empfiehlt" not in url]]. *)
Definition internal_urls_of (urls : list string) : list string :=
  filter (fun url => is_internal_and_not_image url
                     && negb (Str.contains "empfiehlt" url)) urls.

(** ** Python [dict]: an insertion-ordered map

    Keys keep the position of their first insertion; assigning to a key that
    is present replaces its value where it stands.  An association list
    whose keys are pairwise distinct. *)

Class EqKey (K : Type) := {
  key_eqb : K -> K -> bool;
  key_eqb_eq : forall a b, key_eqb a b = true <-> a = b
}.

#[export] Instance string_EqKey : EqKey string :=
  {| key_eqb := String.eqb; key_eqb_eq := String.eqb_eq |}.

Definition text_eqb (a b : text) : bool :=
  match a, b with
  | Some x, Some y => String.eqb x y
  | None, None => true
  | _, _ => false
  end.

#[export] Instance text_EqKey : EqKey text.
Proof.
  refine {| key_eqb := text_eqb; key_eqb_eq := _ |}.
  intros [x|] [y|]; simpl; split; intros E;
    try discriminate; try reflexivity.
  - apply String.eqb_eq in E. now subst.
  - injection E as ->. apply String.eqb_refl.
Defined.

Module Dict.

Definition dict (K V : Type) := list (K * V).

Section Ops.
Context {K V : Type} `{EqKey K}.

(** [d.get(k)]: the value, or nothing. *)
Fixpoint get (d : dict K V) (k : K) : option V :=
  match d with
  | [] => None
  | (k', v) :: d' => if key_eqb k' k then Some v else get d' k
  end.

(** [k in d] *)
Definition mem (k : K) (d : dict K V) : bool :=
  match get d k with Some _ => true | None => false end.

(** [d.get(k, default)] *)
Definition get_default (d : dict K V) (k : K) (default : V) : V :=
  match get d k with Some v => v | None => default end.

(** [d[k]], a [KeyError] when [k] is absent. *)
Definition getitem (d : dict K V) (k : K) : result V :=
  match get d k with Some v => Ok v | None => Raise KeyError end.

(** [d[k] = v] *)
Fixpoint set (k : K) (v : V) (d : dict K V) : dict K V :=
  match d with
  | [] => [(k, v)]
  | (k', v') :: d' =>
      if key_eqb k' k then (k', v) :: d' else (k', v') :: set k v d'
  end.

(** [d.keys()] and [d.items()], in insertion order. *)
Definition keys (d : dict K V) : list K := map fst d.
Definition items (d : dict K V) : list (K * V) := d.

(** [d.update(other)] *)
Definition update (d other : dict K V) : dict K V :=
  fold_left (fun acc kv => set (fst kv) (snd kv) acc) other d.

(** What every [dict] satisfies: no key twice. *)
Definition wf (d : dict K V) : Prop := NoDup (keys d).
End Ops.

(** [enumerate(xs)] *)
Definition enumerate {A} (xs : list A) : list (nat * A) :=
  combine (seq 0 (length xs)) xs.

End Dict.

Import Dict.

(** ** [xml.etree.ElementTree] *)

Module ET.

#[warnings="-register-all"]
Inductive Element :=
| Elem (tag : string) (txt : text) (children : list Element).

Definition el_tag (e : Element) : string :=
  match e with Elem t _ _ => t end.
(** [element.text]: [None] for an element without character data. *)
Definition el_text (e : Element) : text :=
  match e with Elem _ x _ => x end.
Definition el_children (e : Element) : list Element :=
  match e with Elem _ _ cs => cs end.

Record ElementTree := { getroot : Element }.

(** All elements strictly below [e], in document order. *)
Fixpoint descendants (e : Element) : list Element :=
  match e with
  | Elem _ _ cs => flat_map (fun c => c :: descendants c) cs
  end.

(** The paths the module uses have one step: a name test on the children
    ([name]) or on the descendants ([.//name]); the name may carry a
    namespace prefix ([prefix:name]). *)
Inductive axis := Children | Descendants.

Record path := {
  path_axis : axis;
  path_prefix : option string;
  path_name : string
}.

(** The tokenizer's translation of a name with the [namespaces] argument:
    a prefixed name becomes [{uri}name] and needs its prefix in the map, an
    unprefixed one takes the default namespace (the empty key) when the map
    gives a non-empty one.  It is applied to the four paths of the module
    only: [title], [link] and [.//item] without a map, [.//content:encoded]
    with [NAMESPACE]. *)
Definition resolve (namespaces : option (dict string string)) (p : path)
  : result string :=
  match path_prefix p with
  | Some pre =>
      match namespaces with
      | None | Some [] => Raise SyntaxError
      | Some ns =>
          match get ns pre with
          | Some uri => Ok ("{" ++ uri ++ "}" ++ path_name p)
          | None => Raise SyntaxError
          end
      end
  | None =>
      match namespaces with
      | None | Some [] => Ok (path_name p)
      | Some ns =>
          match get ns EmptyString with
          | Some (String c uri) => Ok ("{" ++ String c uri ++ "}" ++ path_name p)
          | _ => Ok (path_name p)
          end
      end
  end.

Definition candidates (a : axis) (e : Element) : list Element :=
  match a with
  | Children => el_children e
  | Descendants => descendants e
  end.

(** [element.findall(path, namespaces)] *)
Definition findall (e : Element) (p : path)
    (namespaces : option (dict string string)) : result (list Element) :=
  t <- resolve namespaces p ;;
  Ok (filter (fun c => String.eqb (el_tag c) t) (candidates (path_axis p) e)).

(** [element.find(path, namespaces)]: the first match, or [None]. *)
Definition find (e : Element) (p : path)
    (namespaces : option (dict string string)) : result (option Element) :=
  t <- resolve namespaces p ;;
  Ok (List.find (fun c => String.eqb (el_tag c) t) (candidates (path_axis p) e)).

End ET.

Import ET.

(** ** The module's functions *)

Definition NAMESPACE : dict string string :=
  [("content", "http://purl.org/rss/1.0/modules/content/")].

(** ['title'], ['link'], ['.//content:encoded'] and ['.//item']. *)
Definition title_path : path :=
  {| path_axis := Children; path_prefix := None; path_name := "title" |}.
Definition link_path : path :=
  {| path_axis := Children; path_prefix := None; path_name := "link" |}.
Definition content_path : path :=
  {| path_axis := Descendants; path_prefix := Some "content";
     path_name := "encoded" |}.
Definition item_path : path :=
  {| path_axis := Descendants; path_prefix := None; path_name := "item" |}.

(** [element.find(path, namespace).text if element.find(path, namespace) is not None else default] *)
Definition get_text (element : Element) (p : path) (default : string)
    (namespace : option (dict string string)) : result text :=
  found <- find element p namespace ;;
  match found with
  | Some e => Ok (el_text e)
  | None => Ok (Some default)
  end.

(** One iteration of the loop of [extract_content]; the state is the pair
    [(articles_internal_links, articles)]. *)
Definition extract_item (item : Element)
    (st : dict text (list string) * dict text text)
  : result (dict text (list string) * dict text text) :=
  title <- get_text item title_path "No Title" None ;;
  content <- get_text item content_path EmptyString (Some NAMESPACE) ;;
  link <- get_text item link_path "No Link" None ;;
  urls <- Re.findall content ;;
  let internal_urls := internal_urls_of urls in
  Ok (set title internal_urls (fst st), set link title (snd st)).

Definition extract_content (tree : ElementTree)
  : result (dict text (list string) * dict text text) :=
  let root := getroot tree in
  its <- findall root item_path None ;;
  for_each extract_item its ([], []).

(** *** Item records

    What [extract_content] reads from one [item]: the three texts, each
    the text of the first matching element or the default. *)

Definition content_tag : string :=
  "{http://purl.org/rss/1.0/modules/content/}encoded".

Definition first_text (cands : list Element) (tag default : string) : text :=
  match List.find (fun c => String.eqb (el_tag c) tag) cands with
  | Some e => el_text e
  | None => Some default
  end.

Record ItemRecord := {
  title : text;
  body : text;
  link : text
}.

Definition item_record (item : Element) : ItemRecord :=
  {| title := first_text (el_children item) "title" "No Title";
     body := first_text (descendants item) content_tag EmptyString;
     link := first_text (el_children item) "link" "No Link" |}.

(** An element is absent when no child (for the content, no descendant) of
    the item carries its tag. *)
Definition title_absent (item : Element) : Prop :=
  forall c, In c (el_children item) -> el_tag c <> "title".
Definition link_absent (item : Element) : Prop :=
  forall c, In c (el_children item) -> el_tag c <> "link".
Definition content_absent (item : Element) : Prop :=
  forall c, In c (descendants item) -> el_tag c <> content_tag.

(** The reading of the last-writer rule for absent links by which only the
    items without a [link] element compete for the key [No Link]. *)
Definition no_link_last_absent_wins : Prop :=
  forall tree al l2t pre item post,
    extract_content tree = Ok (al, l2t) ->
    findall (getroot tree) item_path None = Ok (pre ++ item :: post)%list ->
    link_absent item ->
    (forall it, In it post -> ~ link_absent it) ->
    get l2t (Some "No Link") = Some (title (item_record item)).

(** ** [networkx.DiGraph]

    The three dictionaries of a directed graph: node attributes, successors
    and predecessors, the inner dictionaries holding the edge attributes. *)

Module Nx.

Definition attrs := dict string string.

Record DiGraph := {
  node_ : dict string attrs;
  succ_ : dict string (dict string attrs);
  pred_ : dict string (dict string attrs)
}.

(** [nx.DiGraph()] *)
Definition empty : DiGraph := {| node_ := []; succ_ := []; pred_ := [] |}.

(** [n in G] *)
Definition contains (G : DiGraph) (n : string) : bool := mem n (node_ G).

(** [G.add_node(n, **attr)]: a new node gets a fresh attribute dictionary
    updated with [attr]; for a node already present only its attributes are
    updated.  [None] cannot be a node. *)
Definition add_node (n : text) (attr : attrs) (G : DiGraph) : result DiGraph :=
  match n with
  | None => Raise ValueError
  | Some n =>
      if negb (mem n (succ_ G)) then
        Ok {| node_ := set n (update [] attr) (node_ G);
              succ_ := set n [] (succ_ G);
              pred_ := set n [] (pred_ G) |}
      else
        old <- getitem (node_ G) n ;;
        Ok {| node_ := set n (update old attr) (node_ G);
              succ_ := succ_ G;
              pred_ := pred_ G |}
  end.

(** The node-adding preamble of [add_edge], for one endpoint. *)
Definition ensure_node (n : text) (G : DiGraph) : result (string * DiGraph) :=
  match n with
  | None => Raise ValueError
  | Some n =>
      if negb (mem n (succ_ G)) then
        Ok (n, {| node_ := set n [] (node_ G);
                  succ_ := set n [] (succ_ G);
                  pred_ := set n [] (pred_ G) |})
      else Ok (n, G)
  end.

(** [G.add_edge(u, v)], without edge attributes. *)
Definition add_edge (u v : text) (G : DiGraph) : result DiGraph :=
  '(u, G1) <- ensure_node u G ;;
  '(v, G2) <- ensure_node v G1 ;;
  su <- getitem (succ_ G2) u ;;
  let datadict := get_default su v [] in
  pv <- getitem (pred_ G2) v ;;
  Ok {| node_ := node_ G2;
        succ_ := set u (set v datadict su) (succ_ G2);
        pred_ := set v (set u datadict pv) (pred_ G2) |}.

(** [G.nodes[n]["type"]], when there is one. *)
Definition node_type (G : DiGraph) (n : string) : option string :=
  match get (node_ G) n with
  | Some a => get a "type"
  | None => None
  end.

(** [G.edges()]: for every node its successors, in insertion order. *)
Definition edges (G : DiGraph) : list (string * string) :=
  flat_map (fun us => map (fun v => (fst us, v)) (keys (snd us))) (succ_ G).

Definition has_edge (G : DiGraph) (u v : string) : bool :=
  match get (succ_ G) u with
  | Some su => mem v su
  | None => false
  end.

End Nx.

(** [if url not in G: G.add_node(url, type='url')] *)
Definition add_url_node (url : string) (G : Nx.DiGraph) : result Nx.DiGraph :=
  if negb (Nx.contains G url)
  then Nx.add_node (Some url) [("type", "url")] G
  else Ok G.

(** The body of the inner loop of [create_network_graph]. *)
Definition link_target (article : text) (url : string) (G : Nx.DiGraph)
  : result Nx.DiGraph :=
  G1 <- add_url_node url G ;;
  Nx.add_edge article (Some url) G1.

(** The body of the outer loop. *)
Definition link_article (entry : text * list string) (G : Nx.DiGraph)
  : result Nx.DiGraph :=
  let '(article, urls) := entry in
  G1 <- Nx.add_node article [("type", "article")] G ;;
  for_each (link_target article) urls G1.

(** The graph construction of [create_network_graph]; laying the graph out
    and showing the figure are left to the plotting libraries. *)
Definition create_network_graph (data : dict text (list string))
  : result Nx.DiGraph :=
  for_each link_article (items data) Nx.empty.

(** What the three dictionaries of a graph built by the operations above
    satisfy: they have the same keys, and no successor is listed twice. *)
Record graph_inv (G : Nx.DiGraph) : Prop := {
  inv_succ : forall n, mem n (Nx.succ_ G) = mem n (Nx.node_ G);
  inv_pred : forall n, mem n (Nx.pred_ G) = mem n (Nx.node_ G);
  inv_wf_succ : wf (Nx.succ_ G);
  inv_wf_adj : forall u su, In (u, su) (Nx.succ_ G) -> wf su
}.

(** The node types after the articles [arts] have been processed. *)
Definition typed (arts : list text) (G : Nx.DiGraph) : Prop :=
  (forall a, In (Some a) arts -> Nx.node_type G a = Some "article")
  /\ (forall n, Nx.contains G n = true -> ~ In (Some n) arts ->
        Nx.node_type G n = Some "url").

(** ** The Mermaid diagram *)

Definition newline : string := String (ascii_of_nat 10) EmptyString.
Definition dquote : string := String (ascii_of_nat 34) EmptyString.

Definition mermaid_header : string := "graph TD;" ++ newline.

(** [f"A{index}"] *)
Definition label (index : nat) : string := "A" ++ Str.of_nat index.

(** One step of the comprehension: [acc[title] = f"A{index}"]. *)
Definition assign (acc : dict text string) (it : nat * text) : dict text string :=
  set (snd it) (label (fst it)) acc.

(** [{title: f"A{index}" for index, title in enumerate(internal_links.keys())}] *)
Definition article_ids (internal_links : dict text (list string))
  : dict text string :=
  fold_left assign (enumerate (keys internal_links)) [].

(** The line appended for one edge. *)
Definition edge_statement (source_id : string) (title : text)
    (target_id : string) (link_title : text) : string :=
  "  " ++ source_id ++ "[" ++ dquote ++ Str.format title ++ dquote ++ "] --> "
       ++ target_id ++ "[" ++ dquote ++ Str.format link_title ++ dquote ++ "];"
       ++ newline.

Definition unknown_article : text := Some "Unknown Article".

(** The body of the inner loop of [generate_mermaid_diagram]. *)
Definition mermaid_link (ids : dict text string) (source_id : string)
    (title : text) (mapping : dict text text) (link : string)
    (mermaid_graph : string) : result string :=
  let link_title := get_default mapping (Some link) unknown_article in
  if mem link_title ids then
    target_id <- getitem ids link_title ;;
    Ok (mermaid_graph ++ edge_statement source_id title target_id link_title)
  else Ok mermaid_graph.

Definition mermaid_article (ids : dict text string) (mapping : dict text text)
    (entry : text * list string) (mermaid_graph : string) : result string :=
  let '(title, links) := entry in
  source_id <- getitem ids title ;;
  for_each (mermaid_link ids source_id title mapping) links mermaid_graph.

Definition generate_mermaid_diagram (internal_links : dict text (list string))
    (mapping : dict text text) : result string :=
  let mermaid_graph := mermaid_header in
  let ids := article_ids internal_links in
  for_each (mermaid_article ids mapping) (items internal_links) mermaid_graph.

(** The edges the two loops emit, in order: source title, link, resolved
    title.  A reading of the loops that keeps the edges apart instead of
    appending their text; [diagram_statements] is the text of each. *)
Definition id_of (ids : dict text string) (t : text) : string :=
  get_default ids t EmptyString.

Definition resolved_edges (ids : dict text string) (mapping : dict text text)
    (entry : text * list string) : list (text * string * text) :=
  flat_map (fun link =>
              let link_title := get_default mapping (Some link) unknown_article in
              if mem link_title ids then [(fst entry, link, link_title)] else [])
           (snd entry).

Definition diagram_edges (internal_links : dict text (list string))
    (mapping : dict text text) : list (text * string * text) :=
  flat_map (resolved_edges (article_ids internal_links) mapping)
           (items internal_links).

Definition statement_of (ids : dict text string) (e : text * string * text)
  : string :=
  let '(title, _, link_title) := e in
  edge_statement (id_of ids title) title (id_of ids link_title) link_title.

Definition diagram_statements (internal_links : dict text (list string))
    (mapping : dict text text) : list string :=
  map (statement_of (article_ids internal_links))
      (diagram_edges internal_links mapping).

Definition concat_lines (ls : list string) : string :=
  fold_right String.append EmptyString ls.

(** The reading of the round trip by which every emitted edge comes from a
    link that the link-to-title mapping itself sends to an article key. *)
Definition every_edge_resolves_through_mapping : Prop :=
  forall (internal_links : dict text (list string)) (mapping : dict text text),
    wf internal_links -> wf mapping ->
    forall line, In line (diagram_statements internal_links mapping) ->
      exists title links link link_title,
        get internal_links title = Some links
        /\ In link links
        /\ get mapping (Some link) = Some link_title
        /\ In link_title (keys internal_links)
        /\ line = edge_statement (id_of (article_ids internal_links) title) title
                    (id_of (article_ids internal_links) link_title) link_title.

(** ** The traces of [build_traces]

    The two [go.Scatter] objects are records of the lists the function
    builds; their constant styling is left to the plotting library.  The
    layout [pos] maps a node to its pair of coordinates, of a type [C] the
    function only copies. *)

Record EdgeTrace (C : Type) := {
  edge_x : list (option C);
  edge_y : list (option C)
}.
Arguments edge_x {C} _.
Arguments edge_y {C} _.

Record NodeTrace (C : Type) := {
  node_x : list C;
  node_y : list C;
  node_adjacencies : list nat;
  node_text : list string
}.
Arguments node_x {C} _.
Arguments node_y {C} _.
Arguments node_adjacencies {C} _.
Arguments node_text {C} _.

(** The body of the loop over [G.edges()]. *)
Definition trace_edge {C} (pos : dict string (C * C)) (edge : string * string)
    (acc : EdgeTrace C) : result (EdgeTrace C) :=
  p0 <- getitem pos (fst edge) ;;
  p1 <- getitem pos (snd edge) ;;
  Ok {| edge_x := edge_x acc ++ [Some (fst p0); Some (fst p1); None];
        edge_y := edge_y acc ++ [Some (snd p0); Some (snd p1); None] |}.

(** [f'{node}<br># of connections: {len(adjacencies)}'] *)
Definition connections_text (node : string) (n : nat) : string :=
  node ++ "<br># of connections: " ++ Str.of_nat n.

(** The body of the loop over [G.nodes()]; [G.adj] is the successor
    dictionary. *)
Definition trace_node {C} (G : Nx.DiGraph) (pos : dict string (C * C))
    (node : string) (acc : NodeTrace C) : result (NodeTrace C) :=
  p <- getitem pos node ;;
  nbrs <- getitem (Nx.succ_ G) node ;;
  let adjacencies := keys nbrs in
  Ok {| node_x := node_x acc ++ [fst p];
        node_y := node_y acc ++ [snd p];
        node_adjacencies := node_adjacencies acc ++ [length adjacencies];
        node_text := node_text acc
                     ++ [connections_text node (length adjacencies)] |}.

Definition build_traces {C} (G : Nx.DiGraph) (pos : dict string (C * C))
  : result (EdgeTrace C * NodeTrace C) :=
  edge_trace <- for_each (trace_edge pos) (Nx.edges G)
                  {| edge_x := []; edge_y := [] |} ;;
  node_trace <- for_each (trace_node G pos) (keys (Nx.node_ G))
                  {| node_x := []; node_y := []; node_adjacencies := [];
                     node_text := [] |} ;;
  Ok (edge_trace, node_trace).

(** ** The script

    [limited_data = {k: articles_internal_links[k] for k in list(articles_internal_links)[:5]}] *)
Definition limited_data (articles_internal_links : dict text (list string))
  : result (dict text (list string)) :=
  for_each (fun k acc => v <- getitem articles_internal_links k ;; Ok (set k v acc))
           (firstn 5 (keys articles_internal_links)) [].

(** [list(set(v))]: the elements of [v], each once, in an order the
    language leaves open. *)
Definition list_of_set (v out : list string) : Prop :=
  NoDup out /\ forall x, In x out <-> In x v.

(** [without_duplicates = {k: list(set(v)) for k, v in articles_internal_links.items()}] *)
Definition without_duplicates (articles_internal_links d : dict text (list string))
  : Prop :=
  Forall2 (fun e e' => fst e' = fst e /\ list_of_set (snd e) (snd e'))
          articles_internal_links d.

(** ** Auxiliary notions for the statements below *)

(** [g0 ++ m1 ++ g1 ++ m2 ++ ... ++ last]: the pieces [ms] laid out in order,
    each after its gap. *)
Fixpoint interleave (gaps ms : list string) (last : string) : string :=
  match gaps, ms with
  | g :: gaps', m :: ms' => g ++ m ++ interleave gaps' ms' last
  | _, _ => last
  end.

(** Every character of [s] belongs to the class of the repeated group. *)
Fixpoint all_class (s : string) : bool :=
  match s with
  | EmptyString => true
  | String c s' => Re.class_char c && all_class s'
  end.

(** The text after a run of the class: nothing, or a character outside
    the class. *)
Definition stops (post : string) : Prop :=
  match post with
  | EmptyString => True
  | String c _ => Re.class_char c = false
  end.

(** The items of a document, as [extract_content] iterates over them. *)
Definition items_of (tree : ElementTree) : list Element :=
  filter (fun c => String.eqb (el_tag c) "item") (descendants (getroot tree)).

(** The three entries [build_traces] appends for an edge, for one of the
    two coordinates. *)
Definition edge_points {C} (proj : C * C -> C) (pos : dict string (C * C))
    (e : string * string) : list (option C) :=
  [option_map proj (get pos (fst e)); option_map proj (get pos (snd e)); None].

(** The out-degree of a node. *)
Definition out_degree (G : Nx.DiGraph) (n : string) : nat :=
  match get (Nx.succ_ G) n with
  | Some nbrs => length (keys nbrs)
  | None => 0
  end.

(** * Properties *)

(** ** Strings *)

Module StrFacts.
Import Str.

Lemma strip_prefix_sound p : forall s r, strip_prefix p s = Some r -> s = p ++ r.
Proof.
  induction p as [|a p IH]; simpl; intros s r E.
  - now injection E as ->.
  - destruct s as [|b s]; [discriminate|].
    destruct (Ascii.eqb a b) eqn:Eab; [|discriminate].
    apply Ascii.eqb_eq in Eab. subst b. f_equal. now apply IH.
Qed.

Lemma strip_prefix_complete p : forall r, strip_prefix p (p ++ r) = Some r.
Proof.
  induction p as [|a p IH]; simpl; intros r; [reflexivity|].
  now rewrite Ascii.eqb_refl.
Qed.

Lemma startswith_iff s p : startswith s p = true <-> is_prefix p s.
Proof.
  unfold startswith, is_prefix. split.
  - destruct (strip_prefix p s) as [r|] eqn:E; [|discriminate].
    intros _. exists r. now apply strip_prefix_sound.
  - intros [post ->]. now rewrite strip_prefix_complete.
Qed.

Lemma append_assoc (a b c : string) : (a ++ b) ++ c = a ++ (b ++ c).
Proof. induction a as [|x a IH]; simpl; [reflexivity|now rewrite IH]. Qed.

Lemma append_nil_r (a : string) : a ++ EmptyString = a.
Proof. induction a as [|x a IH]; simpl; [reflexivity|now rewrite IH]. Qed.

Lemma is_prefix_substring p s : is_prefix p s -> is_substring p s.
Proof. intros [post ->]. now exists EmptyString, post. Qed.

Lemma is_substring_cons c sub s : is_substring sub s -> is_substring sub (String c s).
Proof. intros (pre & post & ->). now exists (String c pre), post. Qed.

Lemma is_substring_refl s : is_substring s s.
Proof. exists EmptyString, EmptyString. simpl. now rewrite append_nil_r. Qed.

Lemma is_substring_app_r a sub s : is_substring sub s -> is_substring sub (a ++ s).
Proof.
  induction a as [|c a IH]; simpl; intros Hs; [assumption|].
  now apply is_substring_cons, IH.
Qed.

Lemma is_substring_app_l sub s b : is_substring sub s -> is_substring sub (s ++ b).
Proof.
  intros (pre & post & ->). exists pre, (post ++ b).
  now rewrite !append_assoc.
Qed.

Lemma contains_iff sub s : contains sub s = true <-> is_substring sub s.
Proof.
  induction s as [|c s IH].
  - simpl. destruct (startswith EmptyString sub) eqn:E.
    + split; [intros _|reflexivity].
      now apply is_prefix_substring, startswith_iff.
    + split; [discriminate|]. intros (pre & post & E').
      destruct pre; [|discriminate]. simpl in E'.
      assert (is_prefix sub EmptyString) as P by now exists post.
      apply startswith_iff in P. congruence.
  - simpl. destruct (startswith (String c s) sub) eqn:E.
    + split; [intros _|reflexivity].
      now apply is_prefix_substring, startswith_iff.
    + rewrite IH. split; [apply is_substring_cons|].
      intros (pre & post & E'). destruct pre as [|x pre].
      * assert (is_prefix sub (String c s)) as P by now exists post.
        apply startswith_iff in P. congruence.
      * simpl in E'. injection E' as _ ->. now exists pre, post.
Qed.

Lemma endswith_iff s x : endswith s x = true <-> is_suffix x s.
Proof.
  induction s as [|c s IH]; cbn [endswith].
  - destruct (String.eqb_spec EmptyString x) as [<-|N].
    + split; [intros _|reflexivity]. now exists EmptyString.
    + split; [discriminate|]. intros [pre E].
      destruct pre; [|discriminate]. now simpl in E.
  - destruct (String.eqb_spec (String c s) x) as [<-|N].
    + split; [intros _|reflexivity]. now exists EmptyString.
    + rewrite IH. split.
      * intros [pre ->]. now exists (String c pre).
      * intros [pre E]. destruct pre as [|y pre]; simpl in E.
        -- congruence.
        -- injection E as _ ->. now exists pre.
Qed.

Lemma of_nat_inj n m : of_nat n = of_nat m -> n = m.
Proof.
  unfold of_nat. intros E.
  apply DecimalNat.Unsigned.to_uint_inj.
  assert (Some (Nat.to_uint n) = Some (Nat.to_uint m)) as E'
    by (rewrite <- !NilEmpty.usu; now rewrite E).
  now injection E'.
Qed.

Lemma drop_length_le n : forall s, String.length (drop n s) <= String.length s.
Proof.
  induction n as [|n IH]; intros [|c s]; simpl; try lia.
  specialize (IH s). lia.
Qed.

End StrFacts.

(** ** The URL scan *)

Module ReFacts.
Import Str StrFacts Re.

(** A percent sign already belongs to the third class, so the escape
    alternative is never the one that fires. *)
Lemma percent_in_punct : alt_punct "%" = true.
Proof. reflexivity. Qed.

Lemma group_star_prefix : forall s, is_prefix (group_star s) s.
Proof.
  fix IH 1. intros [|c s1]; simpl.
  - now exists EmptyString.
  - destruct (alt_letter c || alt_digit c || alt_punct c || alt_paren c).
    + destruct (IH s1) as [post E]. exists post. simpl. now f_equal.
    + destruct (Ascii.eqb c "%"); [|now exists (String c s1)].
      destruct s1 as [|h1 [|h2 s3]]; try (eexists; reflexivity).
      destruct (hex h1 && hex h2); [|eexists; reflexivity].
      destruct (IH s3) as [post E]. exists post. simpl. now do 3 f_equal.
Qed.

(** So the group matches the longest run of class characters: it stops at
    the first character outside the class, and takes trailing punctuation
    of the class with it. *)
Lemma group_star_run : forall s, group_star s = run s.
Proof.
  induction s as [|c s IH]; [reflexivity|].
  cbn [group_star run]. fold (class_char c).
  destruct (class_char c) eqn:Hc; [now rewrite IH|].
  destruct (Ascii.eqb_spec c "%") as [->|N]; [discriminate Hc|reflexivity].
Qed.

Lemma scheme_tail_prefix s m : scheme_tail s = Some m -> is_prefix m s.
Proof.
  unfold scheme_tail. destruct (strip_prefix "://" s) as [r|] eqn:E; [|discriminate].
  apply strip_prefix_sound in E. subst s.
  destruct (group_star_prefix r) as [post Er].
  destruct (group_star r) as [|c g] eqn:Eg; [discriminate|].
  intros [= <-]. exists post. now rewrite Er.
Qed.

Lemma match_at_prefix s m : match_at s = Some m -> is_prefix m s.
Proof.
  unfold match_at.
  destruct (strip_prefix "http" s) as [r|] eqn:E; [|discriminate].
  apply strip_prefix_sound in E. subst s.
  assert (forall t, scheme_tail r = Some t -> is_prefix ("http" ++ t) ("http" ++ r)) as Hplain.
  { intros t Ht. destruct (scheme_tail_prefix _ _ Ht) as [post ->].
    exists post. now rewrite append_assoc. }
  assert (forall t, match scheme_tail r with Some m0 => Some ("http" ++ m0) | None => None end
                    = Some t -> is_prefix t ("http" ++ r)) as Hcase.
  { intros t. destruct (scheme_tail r) as [m0|]; [|discriminate].
    intros [= <-]. now apply Hplain. }
  destruct r as [|c r']; [apply Hcase|].
  destruct (Ascii.eqb_spec c "s") as [->|N].
  - destruct (scheme_tail r') as [m0|] eqn:E0; [|apply Hcase].
    intros [= <-]. destruct (scheme_tail_prefix _ _ E0) as [post ->].
    now exists post.
  - intros Hm. apply Hcase.
    destruct c as [[] [] [] [] [] [] [] []]; try exact Hm; now contradiction N.
Qed.

Lemma match_at_nonempty s m : match_at s = Some m -> 1 <= String.length m.
Proof.
  unfold match_at. destruct (strip_prefix "http" s) as [r|]; [|discriminate].
  assert (forall t, match scheme_tail r with Some m0 => Some ("http" ++ m0) | None => None end
                    = Some t -> 1 <= String.length t) as Hcase.
  { intros t. destruct (scheme_tail r); [|discriminate]. intros [= <-]. simpl. lia. }
  destruct r as [|c r']; [apply Hcase|].
  destruct (Ascii.eqb_spec c "s") as [->|N].
  - destruct (scheme_tail r'); [|apply Hcase]. intros [= <-]. simpl. lia.
  - intros Hm. apply Hcase.
    destruct c as [[] [] [] [] [] [] [] []]; try exact Hm; now contradiction N.
Qed.

Lemma findall_from_substring s : forall skip m,
  In m (findall_from skip s) -> is_substring m s.
Proof.
  induction s as [|c s IH]; simpl; intros skip m Hin; [contradiction|].
  destruct skip as [|k].
  - destruct (match_at (String c s)) as [m0|] eqn:E.
    + destruct Hin as [<-|Hin].
      * now apply is_prefix_substring, match_at_prefix.
      * eapply is_substring_cons, IH, Hin.
    + eapply is_substring_cons, IH, Hin.
  - eapply is_substring_cons, IH, Hin.
Qed.

(** The scan in the shape of its description: a match is reported and the
    scan resumes where it ends; without one the scan moves one character. *)
Lemma findall_from_drop s : forall skip,
  findall_from skip s = findall_str (drop skip s).
Proof.
  induction s as [|c s IH]; intros [|k]; simpl; try reflexivity.
  apply IH.
Qed.

Lemma findall_str_unfold s :
  findall_str s =
  match match_at s with
  | Some m => m :: findall_str (drop (String.length m) s)
  | None => match s with
            | EmptyString => []
            | String _ s' => findall_str s'
            end
  end.
Proof.
  destruct s as [|c s].
  - reflexivity.
  - unfold findall_str at 1. simpl findall_from.
    destruct (match_at (String c s)) as [m|] eqn:E; [|reflexivity].
    rewrite findall_from_drop. apply match_at_nonempty in E.
    destruct (String.length m) as [|k]; [lia|].
    simpl. now rewrite Nat.sub_0_r.
Qed.

End ReFacts.

(** ** Link extraction *)

Lemma is_internal_and_not_image_iff url :
  is_internal_and_not_image url = true <->
  Str.is_substring DOMAIN url /\
  (forall ext, In ext image_extensions -> ~ Str.is_suffix ext url).
Proof.
  unfold is_internal_and_not_image.
  rewrite andb_true_iff, negb_true_iff, StrFacts.contains_iff.
  split; intros [Hd Hext]; split; try assumption.
  - intros ext Hin Hsuf. apply StrFacts.endswith_iff in Hsuf.
    assert (existsb (Str.endswith url) image_extensions = true) as Hex
      by (apply existsb_exists; now exists ext).
    congruence.
  - destruct (existsb (Str.endswith url) image_extensions) eqn:Hex; [|reflexivity].
    apply existsb_exists in Hex as (ext & Hin & Hsuf).
    apply StrFacts.endswith_iff in Hsuf. now destruct (Hext ext Hin).
Qed.

(** C1.  Every link kept by the comprehension of [extract_content] over the
    matches of [re.findall] in a body contains the domain
    [helpedbyanerd.com], ends with none of the extensions [.jpg], [.jpeg],
    [.png], [.gif], [.webp], [.mp4], does not contain [empfiehlt], and is a
    contiguous piece of the body. *)
Theorem extracted_links_filtered (body : string) (urls : list string) (link : string) :
  Re.findall (Some body) = Ok urls ->
  In link (internal_urls_of urls) ->
  Str.is_substring DOMAIN link
  /\ (forall ext, In ext [".jpg"; ".jpeg"; ".png"; ".gif"; ".webp"; ".mp4"] ->
        ~ Str.is_suffix ext link)
  /\ ~ Str.is_substring "empfiehlt" link
  /\ Str.is_substring link body.
Proof.
  intros [= <-] Hin. unfold internal_urls_of in Hin.
  apply filter_In in Hin as [Hfound Hkeep].
  apply andb_true_iff in Hkeep as [Hint Haff].
  apply is_internal_and_not_image_iff in Hint as [Hdom Hext].
  repeat split.
  - exact Hdom.
  - exact Hext.
  - intros Hsub. apply StrFacts.contains_iff in Hsub.
    rewrite Hsub in Haff. discriminate.
  - eapply ReFacts.findall_from_substring, Hfound.
Qed.

Lemma extracted_links_filtered_witness :
  let body :=
    "See https://helpedbyanerd.com/post-a and https://helpedbyanerd.com/cat.jpg" in
  let urls :=
    ["https://helpedbyanerd.com/post-a"; "https://helpedbyanerd.com/cat.jpg"] in
  let link := "https://helpedbyanerd.com/post-a" in
  Re.findall (Some body) = Ok urls
  /\ In link (internal_urls_of urls)
  /\ Str.is_substring DOMAIN link
  /\ (forall ext, In ext [".jpg"; ".jpeg"; ".png"; ".gif"; ".webp"; ".mp4"] ->
        ~ Str.is_suffix ext link)
  /\ ~ Str.is_substring "empfiehlt" link
  /\ Str.is_substring link body.
Proof.
  intros body urls link.
  assert (Re.findall (Some body) = Ok urls) as H1 by (vm_compute; reflexivity).
  assert (In link (internal_urls_of urls)) as H2 by (vm_compute; left; reflexivity).
  split; [exact H1|]. split; [exact H2|].
  exact (extracted_links_filtered body urls link H1 H2).
Defined.

(** C6.  On the body
    [See https://helpedbyanerd.com/post-a and https://helpedbyanerd.com/cat.jpg]
    the scan finds both URLs and the filter keeps exactly
    [https://helpedbyanerd.com/post-a]; an item with that body gets this
    one-element list in [articles_internal_links]. *)
Theorem scenario_image_excluded :
  (urls <- Re.findall
     (Some "See https://helpedbyanerd.com/post-a and https://helpedbyanerd.com/cat.jpg") ;;
   Ok (internal_urls_of urls))
  = Ok ["https://helpedbyanerd.com/post-a"]
  /\ (forall title link st,
        extract_item
          (Elem "item" None
             [Elem "title" title [];
              Elem "{http://purl.org/rss/1.0/modules/content/}encoded"
                (Some "See https://helpedbyanerd.com/post-a and https://helpedbyanerd.com/cat.jpg") [];
              Elem "link" link []]) st
        = Ok (set title ["https://helpedbyanerd.com/post-a"] (fst st),
              set link title (snd st))).
Proof.
  split.
  - vm_compute. reflexivity.
  - intros title link st. reflexivity.
Qed.

(** ** Dictionaries *)

Module DictFacts.

Section Facts.
Context {K V : Type} `{EqKey K}.
Implicit Types (d : dict K V) (k : K) (v : V).

Lemma key_eqb_refl k : key_eqb k k = true.
Proof. now apply key_eqb_eq. Qed.

Lemma key_eqb_neq k k' : k <> k' -> key_eqb k k' = false.
Proof.
  intros N. destruct (key_eqb k k') eqn:E; [|reflexivity].
  apply key_eqb_eq in E. contradiction.
Qed.

Lemma key_eq_dec k k' : {k = k'} + {k <> k'}.
Proof.
  destruct (key_eqb k k') eqn:E.
  - left. now apply key_eqb_eq.
  - right. intros ->. rewrite key_eqb_refl in E. discriminate.
Qed.

Lemma get_set_same d k v : get (set k v d) k = Some v.
Proof.
  induction d as [|[k' v'] d IH]; simpl.
  - now rewrite key_eqb_refl.
  - destruct (key_eqb k' k) eqn:E; simpl; now rewrite E.
Qed.

Lemma get_set_other d k k' v : k <> k' -> get (set k v d) k' = get d k'.
Proof.
  intros N. induction d as [|[k0 v0] d IH]; simpl.
  - now rewrite key_eqb_neq.
  - destruct (key_eqb k0 k) eqn:E; simpl.
    + apply key_eqb_eq in E. subst k0. now rewrite key_eqb_neq.
    + now rewrite IH.
Qed.

Lemma mem_set_same d k v : mem k (set k v d) = true.
Proof. unfold mem. now rewrite get_set_same. Qed.

Lemma mem_set_other d k k' v : k <> k' -> mem k' (set k v d) = mem k' d.
Proof. intros N. unfold mem. now rewrite get_set_other. Qed.

Lemma mem_set d k k' v : mem k' (set k v d) = key_eqb k k' || mem k' d.
Proof.
  destruct (key_eq_dec k k') as [->|N].
  - now rewrite mem_set_same, key_eqb_refl.
  - now rewrite mem_set_other, key_eqb_neq.
Qed.

Lemma get_In d k v : get d k = Some v -> In (k, v) d.
Proof.
  induction d as [|[k' v'] d IH]; simpl; [discriminate|].
  destruct (key_eqb k' k) eqn:E.
  - apply key_eqb_eq in E. intros [= ->]. subst. now left.
  - intros G. right. now apply IH.
Qed.

Lemma mem_In_keys d k : mem k d = true <-> In k (keys d).
Proof.
  unfold mem, keys. induction d as [|[k' v'] d IH]; simpl.
  - split; [discriminate|contradiction].
  - destruct (key_eqb k' k) eqn:E.
    + apply key_eqb_eq in E. split; [now left|reflexivity].
    + rewrite IH. split; [now right|].
      intros [->|Hin]; [|assumption]. rewrite key_eqb_refl in E. discriminate.
Qed.

Lemma In_get d k v : wf d -> In (k, v) d -> get d k = Some v.
Proof.
  unfold wf, keys. induction d as [|[k' v'] d IH]; simpl; [contradiction|].
  intros ND [[= -> ->]|Hin].
  - now rewrite key_eqb_refl.
  - inversion ND as [|? ? Hnot ND']; subst.
    rewrite key_eqb_neq; [now apply IH|].
    intros ->. apply Hnot. now apply (in_map fst) in Hin.
Qed.

Lemma keys_set_mem d k v : mem k d = true -> keys (set k v d) = keys d.
Proof.
  unfold mem, keys. induction d as [|[k' v'] d IH]; simpl; [discriminate|].
  destruct (key_eqb k' k) eqn:E; simpl; [reflexivity|].
  intros Hm. now rewrite IH.
Qed.

Lemma set_fresh d k v : mem k d = false -> set k v d = (d ++ [(k, v)])%list.
Proof.
  unfold mem. induction d as [|[k' v'] d IH]; simpl; [reflexivity|].
  destruct (key_eqb k' k) eqn:E; [discriminate|].
  intros Hm. now rewrite IH.
Qed.

Lemma keys_set_fresh d k v : mem k d = false -> keys (set k v d) = (keys d ++ [k])%list.
Proof. intros Hm. rewrite set_fresh by assumption. unfold keys. now rewrite map_app. Qed.

Lemma wf_set d k v : wf d -> wf (set k v d).
Proof.
  unfold wf. intros ND. destruct (mem k d) eqn:Hm.
  - now rewrite keys_set_mem.
  - rewrite keys_set_fresh by assumption.
    apply NoDup_app; [assumption|repeat constructor; intros []|].
    intros x Hx [<-|[]]. apply mem_In_keys in Hx. congruence.
Qed.

Lemma In_set d k v e : In e (set k v d) -> e = (k, v) \/ In e d.
Proof.
  induction d as [|[k0 v0] d IH]; simpl.
  - intros [<-|[]]. now left.
  - destruct (key_eqb k0 k) eqn:E.
    + apply key_eqb_eq in E. subst k0. intros [<-|Hin]; auto.
    + intros [<-|Hin]; auto. destruct (IH Hin); auto.
Qed.

Lemma get_default_get d k v dflt : get d k = Some v -> get_default d k dflt = v.
Proof. unfold get_default. now intros ->. Qed.

Lemma getitem_mem d k : mem k d = true -> exists v, get d k = Some v /\ getitem d k = Ok v.
Proof.
  unfold mem, getitem. destruct (get d k) as [v|]; [|discriminate].
  intros _. now exists v.
Qed.

End Facts.

End DictFacts.

(** ** Reading items *)

Lemma for_each_app {A S} (body : A -> S -> result S) xs ys s :
  for_each body (xs ++ ys) s = (s' <- for_each body xs s ;; for_each body ys s').
Proof.
  revert s. induction xs as [|x xs IH]; intros s; simpl; [reflexivity|].
  destruct (body x s) as [s1|e]; simpl; [apply IH|reflexivity].
Qed.

Lemma find_absent (cands : list Element) (tag : string) :
  (forall c, In c cands -> el_tag c <> tag) ->
  List.find (fun c => String.eqb (el_tag c) tag) cands = None.
Proof.
  induction cands as [|c cs IH]; simpl; intros Hall; [reflexivity|].
  destruct (String.eqb_spec (el_tag c) tag) as [E|N].
  - exfalso. apply (Hall c); auto.
  - apply IH. intros c' Hc'. apply Hall. now right.
Qed.

Lemma first_text_absent cands tag default :
  (forall c, In c cands -> el_tag c <> tag) ->
  first_text cands tag default = Some default.
Proof. intros Hall. unfold first_text. now rewrite find_absent. Qed.

Lemma get_text_title item :
  get_text item title_path "No Title" None = Ok (title (item_record item)).
Proof.
  unfold get_text, find, item_record, first_text. simpl.
  now destruct (List.find _ _).
Qed.

Lemma get_text_link item :
  get_text item link_path "No Link" None = Ok (link (item_record item)).
Proof.
  unfold get_text, find, item_record, first_text. simpl.
  now destruct (List.find _ _).
Qed.

Lemma get_text_content item :
  get_text item content_path EmptyString (Some NAMESPACE) = Ok (body (item_record item)).
Proof.
  unfold get_text, find, item_record, first_text. simpl.
  now destruct (List.find _ _).
Qed.

Lemma extract_item_eq item st :
  extract_item item st =
  (urls <- Re.findall (body (item_record item)) ;;
   Ok (set (title (item_record item)) (internal_urls_of urls) (fst st),
       set (link (item_record item)) (title (item_record item)) (snd st))).
Proof.
  unfold extract_item.
  now rewrite get_text_title, get_text_content, get_text_link.
Qed.

Lemma extract_content_eq tree :
  extract_content tree =
  for_each extract_item
    (filter (fun c => String.eqb (el_tag c) "item") (descendants (getroot tree)))
    ([], []).
Proof. reflexivity. Qed.

Lemma extract_item_raise item st e :
  extract_item item st = Raise e -> e = TypeError /\ body (item_record item) = None.
Proof.
  rewrite extract_item_eq. destruct (body (item_record item)); simpl.
  - discriminate.
  - now intros [= <-].
Qed.

(** C3.  An item without a [title] child yields the title [No Title], one
    without a [link] child the link [No Link], one without a
    [content:encoded] descendant the empty body; each of the three reads
    returns normally, and with the content absent the whole iteration for
    the item does, recording an empty link list. *)
Theorem missing_fields_default (item : Element) :
  (title_absent item ->
     get_text item title_path "No Title" None = Ok (Some "No Title"))
  /\ (link_absent item ->
        get_text item link_path "No Link" None = Ok (Some "No Link"))
  /\ (content_absent item ->
        get_text item content_path EmptyString (Some NAMESPACE) = Ok (Some EmptyString))
  /\ (content_absent item ->
        forall st, exists t l,
          get_text item title_path "No Title" None = Ok t
          /\ get_text item link_path "No Link" None = Ok l
          /\ extract_item item st = Ok (set t [] (fst st), set l t (snd st))).
Proof.
  split; [|split; [|split]].
  - intros Habs. rewrite get_text_title. simpl. f_equal.
    now apply first_text_absent.
  - intros Habs. rewrite get_text_link. simpl. f_equal.
    now apply first_text_absent.
  - intros Habs. rewrite get_text_content. simpl. f_equal.
    now apply first_text_absent.
  - intros Habs st. exists (title (item_record item)), (link (item_record item)).
    rewrite get_text_title, get_text_link, extract_item_eq.
    repeat split. cbn [body item_record].
    now rewrite (first_text_absent _ _ _ Habs).
Qed.

Lemma missing_fields_default_witness :
  let item := Elem "item" None [] in
  title_absent item /\ link_absent item /\ content_absent item
  /\ get_text item title_path "No Title" None = Ok (Some "No Title")
  /\ get_text item link_path "No Link" None = Ok (Some "No Link")
  /\ get_text item content_path EmptyString (Some NAMESPACE) = Ok (Some EmptyString)
  /\ extract_item item ([], []) = Ok ([(Some "No Title", [])], [(Some "No Link", Some "No Title")]).
Proof.
  intros item.
  assert (title_absent item) as Ht by (intros c []).
  assert (link_absent item) as Hl by (intros c []).
  assert (content_absent item) as Hc by (intros c []).
  destruct (missing_fields_default item) as (P1 & P2 & P3 & P4).
  split; [exact Ht|]. split; [exact Hl|]. split; [exact Hc|].
  split; [exact (P1 Ht)|]. split; [exact (P2 Hl)|]. split; [exact (P3 Hc)|].
  destruct (P4 Hc ([], [])) as (t & l & E1 & E2 & E3).
  rewrite (P1 Ht) in E1. rewrite (P2 Hl) in E2.
  injection E1 as <-. injection E2 as <-. exact E3.
Defined.

Lemma for_each_extract_raises its : forall st item,
  In item its ->
  body (item_record item) = None ->
  for_each extract_item its st = Raise TypeError.
Proof.
  induction its as [|it its IH]; intros st item Hin Hbody; [contradiction|].
  simpl. destruct (extract_item it st) as [st1|e] eqn:E; simpl.
  - destruct Hin as [->|Hin]; [|now apply (IH st1 item)].
    rewrite extract_item_eq, Hbody in E. discriminate.
  - apply extract_item_raise in E as [-> _]. reflexivity.
Qed.

(** C8.  When the first [content:encoded] element of an item is present and
    has no text, [get_text] returns [None] and not the default, the scan of
    that [None] is a [TypeError], the iteration for the item raises it, and
    so does [extract_content] on every document in which the item occurs. *)
Theorem empty_content_raises (item e : Element) :
  find item content_path (Some NAMESPACE) = Ok (Some e) ->
  el_text e = None ->
  get_text item content_path EmptyString (Some NAMESPACE) = Ok None
  /\ Re.findall None = Raise TypeError
  /\ (forall st, extract_item item st = Raise TypeError)
  /\ (forall tree its,
        findall (getroot tree) item_path None = Ok its ->
        In item its ->
        extract_content tree = Raise TypeError).
Proof.
  intros Hfind Htext.
  assert (get_text item content_path EmptyString (Some NAMESPACE) = Ok None) as Hget.
  { unfold get_text. rewrite Hfind. simpl. now rewrite Htext. }
  assert (body (item_record item) = None) as Hbody.
  { rewrite get_text_content in Hget. now injection Hget. }
  split; [exact Hget|]. split; [reflexivity|]. split.
  - intros st. rewrite extract_item_eq, Hbody. reflexivity.
  - intros tree its Hits Hin. unfold extract_content. rewrite Hits. simpl.
    now apply for_each_extract_raises with (item := item).
Qed.

Lemma empty_content_raises_witness :
  let e := Elem content_tag None [] in
  let item := Elem "item" None [Elem "title" (Some "A") []; e] in
  let tree := {| getroot := Elem "rss" None [Elem "channel" None [item]] |} in
  find item content_path (Some NAMESPACE) = Ok (Some e)
  /\ el_text e = None
  /\ findall (getroot tree) item_path None = Ok [item]
  /\ get_text item content_path EmptyString (Some NAMESPACE) = Ok None
  /\ extract_item item ([], []) = Raise TypeError
  /\ extract_content tree = Raise TypeError.
Proof.
  intros e item tree.
  assert (find item content_path (Some NAMESPACE) = Ok (Some e)) as H1 by reflexivity.
  assert (el_text e = None) as H2 by reflexivity.
  assert (findall (getroot tree) item_path None = Ok [item]) as H3 by reflexivity.
  destruct (empty_content_raises item e H1 H2) as (P1 & _ & P3 & P4).
  split; [exact H1|]. split; [exact H2|]. split; [exact H3|].
  split; [exact P1|]. split; [exact (P3 ([], []))|].
  apply (P4 tree [item] H3). left. reflexivity.
Defined.

(** ** The link-to-title mapping *)

Lemma for_each_extract_keeps_key its : forall st st' (k : text),
  for_each extract_item its st = Ok st' ->
  (forall it, In it its -> link (item_record it) <> k) ->
  get (snd st') k = get (snd st) k.
Proof.
  induction its as [|it its IH]; simpl; intros st st' k Hrun Hother.
  - now injection Hrun as <-.
  - destruct (extract_item it st) as [st1|e] eqn:E; simpl in Hrun; [|discriminate].
    rewrite (IH st1 st' k Hrun) by (intros it' Hit'; apply Hother; now right).
    rewrite extract_item_eq in E.
    destruct (Re.findall (body (item_record it))) as [urls|]; simpl in E; [|discriminate].
    injection E as <-. simpl.
    apply DictFacts.get_set_other. apply Hother. now left.
Qed.

Lemma link_absent_record item :
  link_absent item -> link (item_record item) = Some "No Link".
Proof. intros Habs. simpl. now apply first_text_absent. Qed.

Lemma link_literal_record item e :
  find item link_path None = Ok (Some e) ->
  el_text e = Some "No Link" ->
  link (item_record item) = Some "No Link".
Proof.
  unfold find. simpl. intros [= Hfind] Htext.
  unfold first_text. now rewrite Hfind.
Qed.

(** C7, as amended.  When [extract_content] returns, the title recorded
    under the key [No Link] of the link-to-title mapping is that of the
    last item, in document order, whose link reads [No Link]: an item whose
    [link] element is absent, or present with the literal text [No Link],
    and whose followers all have a link other than that text (present with
    another text, or present and empty), leaves its title under the key. *)
Theorem no_link_last_writer tree al l2t pre item post :
  extract_content tree = Ok (al, l2t) ->
  findall (getroot tree) item_path None = Ok (pre ++ item :: post)%list ->
  (link_absent item
   \/ exists e, find item link_path None = Ok (Some e)
                /\ el_text e = Some "No Link") ->
  (forall it, In it post ->
     get_text it link_path "No Link" None <> Ok (Some "No Link")) ->
  exists t,
    get_text item title_path "No Title" None = Ok t
    /\ get l2t (Some "No Link") = Some t.
Proof.
  intros Hrun Hits Hreads Hpost.
  assert (link (item_record item) = Some "No Link") as Hlink.
  { destruct Hreads as [Habs|(e & Hfind & Htext)].
    - now apply link_absent_record.
    - now apply (link_literal_record item e). }
  exists (title (item_record item)). split; [apply get_text_title|].
  unfold extract_content in Hrun. rewrite Hits in Hrun. simpl in Hrun.
  rewrite for_each_app in Hrun.
  destruct (for_each extract_item pre ([], [])) as [st1|] eqn:E1; simpl in Hrun;
    [|discriminate].
  destruct (extract_item item st1) as [st2|] eqn:E2; simpl in Hrun; [|discriminate].
  assert (get l2t (Some "No Link") = get (snd st2) (Some "No Link")) as Hkeep.
  { apply (for_each_extract_keeps_key post st2 (al, l2t) (Some "No Link") Hrun).
    intros it Hin Hl. apply (Hpost it Hin).
    rewrite get_text_link. now rewrite Hl. }
  rewrite Hkeep. rewrite extract_item_eq in E2.
  destruct (Re.findall (body (item_record item))) as [urls|]; simpl in E2;
    [|discriminate].
  injection E2 as <-. cbn [snd].
  simpl in Hlink. rewrite Hlink. apply DictFacts.get_set_same.
Qed.

Lemma no_link_last_writer_witness :
  let a := Elem "item" None [Elem "title" (Some "A") []] in
  let b := Elem "item" None
             [Elem "title" (Some "B") []; Elem "link" (Some "No Link") []] in
  let c := Elem "item" None
             [Elem "title" (Some "C") []; Elem "link" (Some "https://helpedbyanerd.com/c") []] in
  let literal_last := {| getroot := Elem "rss" None [Elem "channel" None [a; b]] |} in
  let absent_last := {| getroot := Elem "rss" None [Elem "channel" None [b; a; c]] |} in
  (extract_content literal_last
   = Ok ([(Some "A", []); (Some "B", [])], [(Some "No Link", Some "B")])
   /\ (exists e, find b link_path None = Ok (Some e) /\ el_text e = Some "No Link")
   /\ exists t, get_text b title_path "No Title" None = Ok t
                /\ get [(Some "No Link", Some "B")] (Some "No Link") = Some t
                /\ t = Some "B")
  /\ (extract_content absent_last
      = Ok ([(Some "B", []); (Some "A", []); (Some "C", [])],
            [(Some "No Link", Some "A"); (Some "https://helpedbyanerd.com/c", Some "C")])
      /\ link_absent a
      /\ exists t, get_text a title_path "No Title" None = Ok t
                   /\ get [(Some "No Link", Some "A");
                           (Some "https://helpedbyanerd.com/c", Some "C")]
                          (Some "No Link") = Some t
                   /\ t = Some "A").
Proof.
  intros a b c literal_last absent_last. split.
  - assert (extract_content literal_last
            = Ok ([(Some "A", []); (Some "B", [])], [(Some "No Link", Some "B")])) as H1
      by reflexivity.
    assert (findall (getroot literal_last) item_path None = Ok ([a] ++ b :: [])%list) as H2
      by reflexivity.
    assert (exists e, find b link_path None = Ok (Some e) /\ el_text e = Some "No Link") as H3.
    { exists (Elem "link" (Some "No Link") []). split; reflexivity. }
    assert (forall it, In it [] ->
              get_text it link_path "No Link" None <> Ok (Some "No Link")) as H4
      by (intros it []).
    split; [exact H1|]. split; [exact H3|].
    destruct (no_link_last_writer literal_last _ _ [a] b [] H1 H2 (or_intror H3) H4)
      as (t & Ht & Hg).
    exists t. split; [exact Ht|]. split; [exact Hg|].
    injection Ht as <-. reflexivity.
  - assert (extract_content absent_last
            = Ok ([(Some "B", []); (Some "A", []); (Some "C", [])],
                  [(Some "No Link", Some "A");
                   (Some "https://helpedbyanerd.com/c", Some "C")])) as H1
      by reflexivity.
    assert (findall (getroot absent_last) item_path None = Ok ([b] ++ a :: [c])%list) as H2
      by reflexivity.
    assert (link_absent a) as H3.
    { intros x [<-|[]]. discriminate. }
    assert (forall it, In it [c] ->
              get_text it link_path "No Link" None <> Ok (Some "No Link")) as H4.
    { intros it [<-|[]]. discriminate. }
    split; [exact H1|]. split; [exact H3|].
    destruct (no_link_last_writer absent_last _ _ [b] a [c] H1 H2 (or_introl H3) H4)
      as (t & Ht & Hg).
    exists t. split; [exact Ht|]. split; [exact Hg|].
    injection Ht as <-. reflexivity.
Defined.

(** C7, as stated, fails: a later item whose [link] element is present with
    the text [No Link] takes the key over from the only item that has no
    [link] element. *)
Lemma no_link_last_absent_wins_fails : ~ no_link_last_absent_wins.
Proof.
  intros Hstated.
  pose (a := Elem "item" None [Elem "title" (Some "A") []]).
  pose (b := Elem "item" None
               [Elem "title" (Some "B") []; Elem "link" (Some "No Link") []]).
  pose (tree := {| getroot := Elem "rss" None [Elem "channel" None [a; b]] |}).
  assert (get [(Some "No Link", Some "B")] (Some "No Link")
          = Some (title (item_record a))) as Habs.
  { apply (Hstated tree [(Some "A", []); (Some "B", [])] _ [] a [b]).
    - reflexivity.
    - reflexivity.
    - intros c [<-|[]]. discriminate.
    - intros it [<-|[]] Hb. apply (Hb (Elem "link" (Some "No Link") [])).
      + right. now left.
      + reflexivity. }
  discriminate Habs.
Qed.

(** ** Diagram identifiers *)

Module IdFacts.
Import DictFacts.

Lemma label_inj i j : label i = label j -> i = j.
Proof. unfold label. simpl. intros [= E]. now apply StrFacts.of_nat_inj. Qed.

Lemma article_ids_fold il :
  article_ids il = fold_left assign (enumerate (keys il)) [].
Proof. reflexivity. Qed.

Lemma fold_assign_mem ks : forall a acc t,
  mem t (fold_left assign (combine (seq a (length ks)) ks) acc) = true
  <-> mem t acc = true \/ In t ks.
Proof.
  induction ks as [|k ks IH]; intros a acc t; simpl.
  - tauto.
  - rewrite IH. unfold assign. simpl. rewrite mem_set, orb_true_iff.
    rewrite (key_eqb_eq k t). tauto.
Qed.

Lemma article_ids_mem il t :
  mem t (article_ids il) = true <-> In t (keys il).
Proof.
  rewrite article_ids_fold. unfold enumerate. rewrite fold_assign_mem.
  split; [intros [H|H]; [discriminate|assumption]|now right].
Qed.

Lemma fold_assign_fresh ks : forall a acc,
  NoDup ks ->
  (forall k, In k ks -> mem k acc = false) ->
  fold_left assign (combine (seq a (length ks)) ks) acc
  = (acc ++ combine ks (map label (seq a (length ks))))%list.
Proof.
  induction ks as [|k ks IH]; intros a acc ND Hfresh; simpl.
  - now rewrite app_nil_r.
  - inversion ND as [|? ? Hnot ND']; subst.
    rewrite IH; [|assumption|].
    + unfold assign. simpl. rewrite set_fresh by (apply Hfresh; now left).
      now rewrite <- app_assoc.
    + intros k' Hk'. unfold assign. simpl. rewrite mem_set.
      rewrite (Hfresh k') by now right.
      rewrite key_eqb_neq; [reflexivity|]. intros ->. contradiction.
Qed.

Lemma article_ids_shape il :
  wf il ->
  article_ids il = combine (keys il) (map label (seq 0 (length (keys il)))).
Proof.
  intros ND. rewrite article_ids_fold. unfold enumerate.
  now rewrite fold_assign_fresh.
Qed.

Lemma get_combine_seq (ks : list text) : forall a i t,
  NoDup ks -> nth_error ks i = Some t ->
  get (combine ks (map label (seq a (length ks)))) t = Some (label (a + i)).
Proof.
  induction ks as [|k ks IH]; intros a i t ND Hn.
  - destruct i; discriminate.
  - inversion ND as [|? ? Hnot ND']; subst.
    cbn [length seq map combine get].
    destruct i as [|j]; cbn [nth_error] in Hn.
    + injection Hn as ->. rewrite key_eqb_refl. now rewrite Nat.add_0_r.
    + assert (k <> t) as N by (intros ->; apply Hnot; eapply nth_error_In; eauto).
      rewrite (key_eqb_neq _ _ N), (IH (S a) j t ND' Hn).
      f_equal. f_equal. lia.
Qed.

Lemma get_combine_seq_inv (ks : list text) : forall a t x,
  get (combine ks (map label (seq a (length ks)))) t = Some x ->
  exists i, nth_error ks i = Some t /\ x = label (a + i).
Proof.
  induction ks as [|k ks IH]; intros a t x; cbn [length seq map combine get].
  - discriminate.
  - destruct (key_eqb k t) eqn:E.
    + apply key_eqb_eq in E. subst k. intros [= <-]. exists 0.
      now rewrite Nat.add_0_r.
    + intros Hg. destruct (IH (S a) t x Hg) as (i & Hn & ->).
      exists (S i). split; [assumption|]. f_equal. lia.
Qed.

Lemma keys_combine_seq (ks : list text) : forall a,
  keys (combine ks (map label (seq a (length ks)))) = ks.
Proof.
  unfold keys. induction ks as [|k ks IH]; intros a; simpl; [reflexivity|].
  now rewrite IH.
Qed.

End IdFacts.

(** C4.  For a dictionary of articles (no key twice),
    [generate_mermaid_diagram] gives every key one identifier and nothing
    else: the key at position [i] of the enumeration gets [A] followed by
    the decimal [i] (the first key [A0]), two titles never share an
    identifier, and the assignment depends on the sequence of keys only, so
    that generating again from the same keys in the same order assigns the
    same identifiers. *)
Theorem article_ids_enumerate (internal_links : dict text (list string)) :
  wf internal_links ->
  keys (article_ids internal_links) = keys internal_links
  /\ wf (article_ids internal_links)
  /\ (forall i t, nth_error (keys internal_links) i = Some t ->
        get (article_ids internal_links) t = Some ("A" ++ Str.of_nat i))
  /\ (forall t1 t2 x,
        get (article_ids internal_links) t1 = Some x ->
        get (article_ids internal_links) t2 = Some x -> t1 = t2)
  /\ (forall other : dict text (list string),
        keys other = keys internal_links ->
        article_ids other = article_ids internal_links).
Proof.
  intros ND. pose proof (IdFacts.article_ids_shape internal_links ND) as Hshape.
  assert (keys (article_ids internal_links) = keys internal_links) as Hkeys
    by (rewrite Hshape; apply IdFacts.keys_combine_seq).
  split; [exact Hkeys|]. split; [unfold wf; now rewrite Hkeys|].
  split; [|split].
  - intros i t Hn. rewrite Hshape.
    apply (IdFacts.get_combine_seq _ 0 i t ND Hn).
  - intros t1 t2 x H1 H2. rewrite Hshape in H1, H2.
    apply IdFacts.get_combine_seq_inv in H1 as (i & Hi & ->).
    apply IdFacts.get_combine_seq_inv in H2 as (j & Hj & E).
    apply IdFacts.label_inj in E. simpl in E. subst j. congruence.
  - intros other Hk. unfold article_ids. now rewrite Hk.
Qed.

Lemma article_ids_enumerate_witness :
  let il : dict text (list string) :=
    [(Some "A", ["https://helpedbyanerd.com/b"]); (Some "B", []); (None, [])] in
  wf il
  /\ article_ids il = [(Some "A", "A0"); (Some "B", "A1"); (None, "A2")]
  /\ keys (article_ids il) = keys il
  /\ get (article_ids il) (Some "B") = Some ("A" ++ Str.of_nat 1).
Proof.
  intros il.
  assert (wf il) as Hwf.
  { unfold wf. simpl. repeat constructor; simpl; intuition discriminate. }
  destruct (article_ids_enumerate il Hwf) as (P1 & _ & P3 & _).
  split; [exact Hwf|]. split; [reflexivity|]. split; [exact P1|].
  apply (P3 1 (Some "B")). reflexivity.
Defined.

(** ** The diagram text *)

Module DiagramFacts.
Import DictFacts StrFacts.

Lemma concat_lines_app xs ys :
  concat_lines (xs ++ ys) = concat_lines xs ++ concat_lines ys.
Proof.
  induction xs as [|x xs IH]; simpl; [reflexivity|].
  now rewrite IH, append_assoc.
Qed.

Lemma concat_lines_In line ls :
  In line ls -> Str.is_substring line (concat_lines ls).
Proof.
  induction ls as [|l ls IH]; simpl; intros Hin; [contradiction|].
  destruct Hin as [->|Hin].
  - apply is_substring_app_l, is_substring_refl.
  - now apply is_substring_app_r, IH.
Qed.

Lemma getitem_id_of (ids : dict text string) t :
  mem t ids = true -> getitem ids t = Ok (id_of ids t).
Proof.
  unfold mem, getitem, id_of, get_default.
  now destruct (get ids t).
Qed.

Lemma mermaid_link_loop ids title mapping links : forall g,
  for_each (mermaid_link ids (id_of ids title) title mapping) links g
  = Ok (g ++ concat_lines
               (map (statement_of ids) (resolved_edges ids mapping (title, links)))).
Proof.
  unfold resolved_edges. cbn [fst snd].
  induction links as [|link links IH]; intros g; cbn [for_each flat_map].
  - simpl. now rewrite append_nil_r.
  - unfold mermaid_link at 1.
    destruct (mem (get_default mapping (Some link) unknown_article) ids) eqn:Hm.
    + rewrite (getitem_id_of _ _ Hm). cbn [bind]. rewrite IH.
      cbn [app map concat_lines fold_right statement_of].
      now rewrite append_assoc.
    + cbn [bind]. now rewrite IH.
Qed.

Lemma mermaid_article_loop ids mapping its : forall g,
  (forall e, In e its -> mem (fst e) ids = true) ->
  for_each (mermaid_article ids mapping) its g
  = Ok (g ++ concat_lines
               (map (statement_of ids) (flat_map (resolved_edges ids mapping) its))).
Proof.
  induction its as [|[title links] its IH]; intros g Hkeys; cbn [for_each flat_map].
  - simpl. now rewrite append_nil_r.
  - unfold mermaid_article at 1.
    rewrite (getitem_id_of ids title) by (apply (Hkeys (title, links)); now left).
    cbn [bind]. rewrite mermaid_link_loop. cbn [bind].
    rewrite IH by (intros e He; apply Hkeys; now right).
    now rewrite map_app, concat_lines_app, append_assoc.
Qed.

Lemma generate_mermaid_diagram_text internal_links mapping :
  generate_mermaid_diagram internal_links mapping
  = Ok (mermaid_header ++ concat_lines (diagram_statements internal_links mapping)).
Proof.
  unfold generate_mermaid_diagram, diagram_statements, diagram_edges.
  apply mermaid_article_loop. intros [t ls] Hin.
  apply IdFacts.article_ids_mem. unfold keys. now apply (in_map fst) in Hin.
Qed.

Lemma diagram_statements_In internal_links mapping line :
  In line (diagram_statements internal_links mapping) <->
  exists title links link,
    In (title, links) (items internal_links)
    /\ In link links
    /\ In (get_default mapping (Some link) unknown_article) (keys internal_links)
    /\ line = statement_of (article_ids internal_links)
                (title, link, get_default mapping (Some link) unknown_article).
Proof.
  unfold diagram_statements, diagram_edges. rewrite in_map_iff. split.
  - intros (e & <- & He). apply in_flat_map in He as ([title links] & Hin & He).
    unfold resolved_edges in He. cbn [fst snd] in He.
    apply in_flat_map in He as (link & Hlink & He).
    destruct (mem _ _) eqn:Hm in He; [|contradiction].
    destruct He as [<-|[]]. exists title, links, link.
    repeat split; try assumption. now apply IdFacts.article_ids_mem.
  - intros (title & links & link & Hin & Hlink & Hkey & ->).
    eexists. split; [reflexivity|].
    apply in_flat_map. exists (title, links). split; [assumption|].
    unfold resolved_edges. cbn [fst snd]. apply in_flat_map.
    exists link. split; [assumption|].
    apply IdFacts.article_ids_mem in Hkey. rewrite Hkey. now left.
Qed.

End DiagramFacts.

Lemma id_of_get (ids : dict text string) t :
  mem t ids = true -> get ids t = Some (id_of ids t).
Proof.
  unfold mem, id_of, get_default. now destruct (get ids t).
Qed.

(** C2, as amended.  The diagram is the header followed by the emitted edge
    statements, and every emitted statement comes from a pair of a title and
    a link of that title's list whose resolved title is a key of the article
    dictionary, where the resolved title is the mapping's value for the link
    when the link is a key of the mapping and the placeholder
    [Unknown Article] when it is not; the statement joins the identifiers
    of the two titles. *)
Theorem diagram_edges_resolve (internal_links : dict text (list string))
    (mapping : dict text text) :
  wf internal_links ->
  generate_mermaid_diagram internal_links mapping
  = Ok (mermaid_header ++ concat_lines (diagram_statements internal_links mapping))
  /\ forall line, In line (diagram_statements internal_links mapping) ->
       exists title links link link_title source_id target_id,
         get internal_links title = Some links
         /\ In link links
         /\ link_title = get_default mapping (Some link) (Some "Unknown Article")
         /\ In link_title (keys internal_links)
         /\ get (article_ids internal_links) title = Some source_id
         /\ get (article_ids internal_links) link_title = Some target_id
         /\ line = edge_statement source_id title target_id link_title.
Proof.
  intros Hwf. split; [apply DiagramFacts.generate_mermaid_diagram_text|].
  intros line Hline.
  apply DiagramFacts.diagram_statements_In in Hline
    as (title & links & link & Hin & Hlink & Hkey & ->).
  exists title, links, link, (get_default mapping (Some link) unknown_article),
    (id_of (article_ids internal_links) title),
    (id_of (article_ids internal_links) (get_default mapping (Some link) unknown_article)).
  split; [now apply DictFacts.In_get|]. split; [assumption|].
  split; [reflexivity|]. split; [assumption|].
  split; [|split; [|reflexivity]]; apply id_of_get, IdFacts.article_ids_mem.
  - unfold keys. now apply (in_map fst) in Hin.
  - assumption.
Qed.

Lemma diagram_edges_resolve_witness :
  let il : dict text (list string) :=
    [(Some "A", []); (Some "B", ["https://helpedbyanerd.com/a"])] in
  let mp : dict text text :=
    [(Some "https://helpedbyanerd.com/a", Some "A");
     (Some "https://helpedbyanerd.com/b", Some "B")] in
  wf il
  /\ generate_mermaid_diagram il mp
     = Ok (mermaid_header ++ edge_statement "A1" (Some "B") "A0" (Some "A"))
  /\ diagram_statements il mp = [edge_statement "A1" (Some "B") "A0" (Some "A")].
Proof.
  intros il mp.
  assert (wf il) as Hwf.
  { unfold wf. simpl. repeat constructor; simpl; intuition discriminate. }
  destruct (diagram_edges_resolve il mp Hwf) as [Htext _].
  split; [exact Hwf|]. split; [|reflexivity].
  rewrite Htext. reflexivity.
Defined.

(** C2, as stated, fails: with an article titled [Unknown Article] an edge
    is emitted for a link that the mapping does not resolve at all. *)
Lemma every_edge_resolves_through_mapping_fails :
  ~ every_edge_resolves_through_mapping.
Proof.
  intros Hstated.
  destruct (Hstated [(Some "Unknown Article", ["https://helpedbyanerd.com/gone"])] [])
    with (line := edge_statement "A0" (Some "Unknown Article") "A0" (Some "Unknown Article"))
    as (title & links & link & link_title & _ & _ & Hget & _).
  - unfold wf. simpl. repeat constructor. intros [].
  - constructor.
  - left. reflexivity.
  - discriminate Hget.
Qed.

(** C9.  When [Unknown Article] is itself a title of the article
    dictionary, every link of every article's list that is not a key of the
    mapping gets an edge statement from its article's identifier to the
    identifier of the article titled [Unknown Article]: the line, two
    spaces, the source identifier and quoted title in brackets, the arrow,
    the identifier of [Unknown Article] and that title quoted in brackets,
    a semicolon and a line feed, is part of the returned diagram. *)
Theorem unresolved_links_reach_unknown_article
    (internal_links : dict text (list string)) (mapping : dict text text)
    (title : text) (links : list string) (link : string) :
  In (Some "Unknown Article") (keys internal_links) ->
  In (title, links) (items internal_links) ->
  In link links ->
  get mapping (Some link) = None ->
  exists source_id unknown_id diagram,
    get (article_ids internal_links) title = Some source_id
    /\ get (article_ids internal_links) (Some "Unknown Article") = Some unknown_id
    /\ In ("  " ++ source_id ++ "[" ++ String "034" EmptyString
                ++ Str.format title ++ String "034" EmptyString ++ "] --> "
                ++ unknown_id ++ "[" ++ String "034" EmptyString
                ++ "Unknown Article" ++ String "034" EmptyString ++ "];"
                ++ String "010" EmptyString)
          (diagram_statements internal_links mapping)
    /\ generate_mermaid_diagram internal_links mapping = Ok diagram
    /\ Str.is_substring
         ("  " ++ source_id ++ "[" ++ String "034" EmptyString
               ++ Str.format title ++ String "034" EmptyString ++ "] --> "
               ++ unknown_id ++ "[" ++ String "034" EmptyString
               ++ "Unknown Article" ++ String "034" EmptyString ++ "];"
               ++ String "010" EmptyString)
         diagram.
Proof.
  intros Hunknown Hin Hlink Hmiss.
  set (ids := article_ids internal_links).
  assert (get_default mapping (Some link) unknown_article = unknown_article) as Hres
    by (unfold get_default; now rewrite Hmiss).
  assert (In (edge_statement (id_of ids title) title
                (id_of ids unknown_article) unknown_article)
             (diagram_statements internal_links mapping)) as Hstmt.
  { apply DiagramFacts.diagram_statements_In. exists title, links, link.
    rewrite Hres. repeat split; assumption. }
  assert (Str.is_substring
            (edge_statement (id_of ids title) title
               (id_of ids unknown_article) unknown_article)
            (mermaid_header ++ concat_lines (diagram_statements internal_links mapping)))
    as Hsub
    by (apply StrFacts.is_substring_app_r, DiagramFacts.concat_lines_In, Hstmt).
  exists (id_of ids title), (id_of ids unknown_article),
    (mermaid_header ++ concat_lines (diagram_statements internal_links mapping)).
  split; [|split; [|split; [exact Hstmt|split; [|exact Hsub]]]].
  - apply id_of_get, IdFacts.article_ids_mem. unfold keys.
    now apply (in_map fst) in Hin.
  - apply id_of_get, IdFacts.article_ids_mem. exact Hunknown.
  - apply DiagramFacts.generate_mermaid_diagram_text.
Qed.

Lemma unresolved_links_reach_unknown_article_witness :
  let il : dict text (list string) :=
    [(Some "Unknown Article", []); (Some "A", ["https://helpedbyanerd.com/gone"])] in
  let mp : dict text text := [(Some "https://helpedbyanerd.com/a", Some "A")] in
  let q := String "034" EmptyString in
  let nl := String "010" EmptyString in
  let line := "  A1[" ++ q ++ "A" ++ q ++ "] --> A0[" ++ q ++ "Unknown Article" ++ q
              ++ "];" ++ nl in
  In (Some "Unknown Article") (keys il)
  /\ In (Some "A", ["https://helpedbyanerd.com/gone"]) (items il)
  /\ get mp (Some "https://helpedbyanerd.com/gone") = None
  /\ generate_mermaid_diagram il mp = Ok ("graph TD;" ++ nl ++ line)
  /\ Str.is_substring line ("graph TD;" ++ nl ++ line).
Proof.
  intros il mp q nl line.
  assert (In (Some "Unknown Article") (keys il)) as H1 by (left; reflexivity).
  assert (In (Some "A", ["https://helpedbyanerd.com/gone"]) (items il)) as H2
    by (right; left; reflexivity).
  assert (In "https://helpedbyanerd.com/gone" ["https://helpedbyanerd.com/gone"]) as H3
    by (left; reflexivity).
  assert (get mp (Some "https://helpedbyanerd.com/gone") = None) as H4 by reflexivity.
  assert (generate_mermaid_diagram il mp = Ok ("graph TD;" ++ nl ++ line)) as H5
    by reflexivity.
  split; [exact H1|]. split; [exact H2|]. split; [exact H4|]. split; [exact H5|].
  destruct (unresolved_links_reach_unknown_article il mp _ _ _ H1 H2 H3 H4)
    as (source_id & unknown_id & diagram & Hs & Hu & _ & Hd & Hsub).
  assert (source_id = "A1") as -> by (vm_compute in Hs; now injection Hs).
  assert (unknown_id = "A0") as -> by (vm_compute in Hu; now injection Hu).
  rewrite H5 in Hd. injection Hd as <-. exact Hsub.
Defined.

(** ** The graph *)

Module NxFacts.
Import DictFacts Nx.

Lemma empty_inv : graph_inv empty.
Proof.
  split; try reflexivity.
  - constructor.
  - intros u su [].
Qed.

Lemma node_type_contains G n t : node_type G n = Some t -> contains G n = true.
Proof.
  unfold node_type, contains, mem. now destruct (get (node_ G) n).
Qed.

Lemma has_edge_In G u v : has_edge G u v = true -> In (u, v) (edges G).
Proof.
  unfold has_edge, edges. destruct (get (succ_ G) u) as [su|] eqn:E; [|discriminate].
  intros Hm. apply in_flat_map. exists (u, su). split; [now apply get_In|].
  cbn [fst snd]. apply in_map. now apply mem_In_keys.
Qed.

Lemma NoDup_map_pair {A B} (u : A) (l : list B) :
  NoDup l -> NoDup (map (fun v => (u, v)) l).
Proof.
  induction 1 as [|x l Hnot ND IH]; simpl; constructor; [|assumption].
  intros Hin. apply in_map_iff in Hin as (y & [= ->] & Hy). contradiction.
Qed.

Lemma edges_NoDup_aux (succ : dict string (dict string attrs)) :
  wf succ -> (forall u su, In (u, su) succ -> wf su) ->
  NoDup (flat_map (fun us => map (fun v => (fst us, v)) (keys (snd us))) succ).
Proof.
  unfold wf at 1. induction succ as [|[u su] succ IH]; intros ND Hadj.
  - constructor.
  - cbn [flat_map fst snd]. cbn [keys map fst] in ND.
    inversion ND as [|? ? Hnot ND']; subst.
    apply NoDup_app.
    + apply NoDup_map_pair, (Hadj u su). now left.
    + apply IH; [exact ND'|]. intros u' su' Hin. apply (Hadj u' su'). now right.
    + intros [x y] Hl Hr. apply in_map_iff in Hl as (v & [= <- <-] & _).
      apply in_flat_map in Hr as ([u' su'] & Hin & Hv).
      apply in_map_iff in Hv as (v' & [= <- <-] & _).
      apply Hnot. now apply (in_map fst) in Hin.
Qed.

Lemma edges_NoDup G : graph_inv G -> NoDup (edges G).
Proof. intros [_ _ Hs Ha]. now apply edges_NoDup_aux. Qed.

(** [add_node] with a [type] attribute. *)
Lemma add_node_type n ty G G' :
  add_node (Some n) [("type", ty)] G = Ok G' ->
  node_type G' n = Some ty.
Proof.
  unfold add_node, node_type.
  destruct (negb (mem n (succ_ G))).
  - intros [= <-]. cbn [node_]. rewrite get_set_same. reflexivity.
  - destruct (getitem (node_ G) n) as [old|]; simpl; [|discriminate].
    intros [= <-]. cbn [node_]. rewrite get_set_same.
    unfold update. simpl. apply get_set_same.
Qed.

Lemma add_node_spec n attr G :
  graph_inv G ->
  exists G',
    add_node (Some n) attr G = Ok G'
    /\ graph_inv G'
    /\ (forall m, contains G' m = true <-> contains G m = true \/ m = n)
    /\ (forall m, m <> n -> get (node_ G') m = get (node_ G) m)
    /\ (forall u v, has_edge G' u v = has_edge G u v).
Proof.
  intros [Hs Hp Hws Hwa]. unfold add_node.
  destruct (mem n (succ_ G)) eqn:Hm; cbn [negb].
  - destruct (getitem_mem (node_ G) n) as (old & Hold & ->);
      [now rewrite <- Hs|]. cbn [bind].
    eexists. split; [reflexivity|]. split; [|split; [|split]].
    + split; cbn [node_ succ_ pred_]; try assumption.
      * intros m. rewrite mem_set, Hs. destruct (key_eq_dec n m) as [<-|N].
        -- now rewrite <- Hs, Hm, orb_true_r.
        -- now rewrite key_eqb_neq.
      * intros m. rewrite mem_set, Hp. destruct (key_eq_dec n m) as [<-|N].
        -- now rewrite <- Hs, Hm, orb_true_r.
        -- now rewrite key_eqb_neq.
    + intros m. unfold contains. cbn [node_]. rewrite mem_set, orb_true_iff.
      rewrite (key_eqb_eq n m). split; [intros [->|H]; auto|].
      intros [H| ->]; auto.
    + intros m N. cbn [node_]. apply get_set_other. congruence.
    + reflexivity.
  - eexists. split; [reflexivity|]. split; [|split; [|split]].
    + split; cbn [node_ succ_ pred_].
      * intros m. now rewrite !mem_set, Hs.
      * intros m. now rewrite !mem_set, Hp.
      * now apply wf_set.
      * intros u su Hin. apply In_set in Hin as [[= -> ->]|Hin].
        -- constructor.
        -- now apply (Hwa u su).
    + intros m. unfold contains. cbn [node_]. rewrite mem_set, orb_true_iff.
      rewrite (key_eqb_eq n m). split; [intros [->|H]; auto|].
      intros [H| ->]; auto.
    + intros m N. cbn [node_]. apply get_set_other. congruence.
    + intros u v. unfold has_edge. cbn [succ_].
      destruct (key_eq_dec n u) as [<-|N].
      * rewrite get_set_same. unfold mem in Hm.
        now destruct (get (succ_ G) n).
      * now rewrite get_set_other.
Qed.

Lemma add_edge_spec u v G :
  graph_inv G -> contains G u = true -> contains G v = true ->
  exists G',
    add_edge (Some u) (Some v) G = Ok G'
    /\ graph_inv G'
    /\ node_ G' = node_ G
    /\ (forall x y, has_edge G' x y = true <->
                    has_edge G x y = true \/ (x = u /\ y = v)).
Proof.
  intros [Hs Hp Hws Hwa] Hu Hv. unfold contains in Hu, Hv.
  unfold add_edge, ensure_node. rewrite !Hs, Hu. cbn [negb bind].
  rewrite Hs, Hv. cbn [negb bind].
  destruct (getitem_mem (succ_ G) u) as (su & Hsu & ->); [now rewrite Hs|].
  destruct (getitem_mem (pred_ G) v) as (pv & Hpv & ->); [now rewrite Hp|].
  cbn [bind]. eexists. split; [reflexivity|]. split; [|split].
  - split; cbn [node_ succ_ pred_].
    + intros m. rewrite mem_set, Hs. destruct (key_eq_dec u m) as [<-|N].
      * now rewrite Hu, orb_true_r.
      * now rewrite key_eqb_neq.
    + intros m. rewrite mem_set, Hp. destruct (key_eq_dec v m) as [<-|N].
      * now rewrite Hv, orb_true_r.
      * now rewrite key_eqb_neq.
    + now apply wf_set.
    + intros x sx Hin. apply In_set in Hin as [[= -> ->]|Hin].
      * apply wf_set, (Hwa u su). now apply get_In.
      * now apply (Hwa x sx).
  - reflexivity.
  - intros x y. unfold has_edge. cbn [succ_].
    destruct (key_eq_dec u x) as [<-|N].
    + rewrite get_set_same, Hsu, mem_set, orb_true_iff, (key_eqb_eq v y).
      split; [intros [->|H]; auto|]. intros [H|[_ ->]]; auto.
    + rewrite get_set_other by assumption.
      split; [auto|]. intros [H|[-> _]]; [assumption|contradiction].
Qed.

Lemma node_type_get G G' m :
  get (node_ G') m = get (node_ G) m -> node_type G' m = node_type G m.
Proof. unfold node_type. now intros ->. Qed.

Lemma contains_false_iff G m : contains G m = false <-> contains G m <> true.
Proof. destruct (contains G m); split; congruence. Qed.

Lemma link_target_spec a url G :
  graph_inv G -> contains G a = true ->
  exists G',
    link_target (Some a) url G = Ok G'
    /\ graph_inv G'
    /\ (forall m, contains G' m = true <-> contains G m = true \/ m = url)
    /\ (forall m, contains G m = true -> get (node_ G') m = get (node_ G) m)
    /\ (contains G url = false -> node_type G' url = Some "url")
    /\ (forall x y, has_edge G' x y = true <->
                    has_edge G x y = true \/ (x = a /\ y = url)).
Proof.
  intros Hinv Ha. unfold link_target, add_url_node.
  destruct (contains G url) eqn:Hurl; cbn [negb bind].
  - destruct (add_edge_spec a url G Hinv Ha Hurl) as (G' & -> & Hinv' & Hnode & Hedge).
    exists G'. split; [reflexivity|]. split; [assumption|].
    unfold contains. rewrite Hnode. repeat split; auto.
    + intros [H| ->]; assumption.
    + discriminate.
    + apply Hedge.
    + apply Hedge.
  - destruct (add_node_spec url [("type", "url")] G Hinv)
      as (G1 & E1 & Hinv1 & Hc1 & Hget1 & Hedge1).
    rewrite E1. cbn [bind].
    assert (contains G1 a = true) as Ha1 by (apply Hc1; now left).
    assert (contains G1 url = true) as Hu1 by (apply Hc1; now right).
    destruct (add_edge_spec a url G1 Hinv1 Ha1 Hu1) as (G' & -> & Hinv' & Hnode & Hedge).
    exists G'. split; [reflexivity|]. split; [assumption|].
    split; [|split; [|split]].
    + intros m. unfold contains at 1. rewrite Hnode. apply Hc1.
    + intros m Hm. rewrite Hnode. apply Hget1. intros ->. congruence.
    + intros _. unfold node_type. rewrite Hnode.
      apply (add_node_type url "url" G G1 E1).
    + intros x y. rewrite Hedge, Hedge1. reflexivity.
Qed.

Lemma link_targets_spec a urls : forall G,
  graph_inv G -> contains G a = true ->
  exists G',
    for_each (link_target (Some a)) urls G = Ok G'
    /\ graph_inv G'
    /\ (forall m, contains G' m = true <-> contains G m = true \/ In m urls)
    /\ (forall m, contains G m = true -> get (node_ G') m = get (node_ G) m)
    /\ (forall m, contains G m = false -> contains G' m = true ->
                  node_type G' m = Some "url")
    /\ (forall x y, has_edge G' x y = true <->
                    has_edge G x y = true \/ (x = a /\ In y urls)).
Proof.
  induction urls as [|url urls IH]; intros G Hinv Ha; cbn [for_each].
  - exists G. split; [reflexivity|]. split; [assumption|].
    split; [|split; [|split]]; simpl; try tauto.
    intros m H1 H2. congruence.
  - destruct (link_target_spec a url G Hinv Ha)
      as (G1 & -> & Hinv1 & Hc1 & Hget1 & Hnew1 & Hedge1).
    cbn [bind].
    assert (contains G1 a = true) as Ha1 by (apply Hc1; now left).
    destruct (IH G1 Hinv1 Ha1) as (G' & -> & Hinv' & Hc & Hget & Hnew & Hedge).
    exists G'. split; [reflexivity|]. split; [assumption|].
    split; [|split; [|split]].
    + intros m. rewrite Hc, Hc1. simpl. intuition congruence.
    + intros m Hm. rewrite Hget by (apply Hc1; now left). now apply Hget1.
    + intros m Hm Hm'. destruct (contains G1 m) eqn:Hm1.
      * apply Hc1 in Hm1 as [Hm1| ->]; [congruence|].
        rewrite <- (Hnew1 Hm). apply node_type_get, Hget. apply Hc1. now right.
      * now apply Hnew.
    + intros x y. rewrite Hedge, Hedge1. simpl. intuition congruence.
Qed.

Lemma link_article_spec a urls G :
  graph_inv G ->
  exists G',
    link_article (Some a, urls) G = Ok G'
    /\ graph_inv G'
    /\ (forall m, contains G' m = true <-> contains G m = true \/ m = a \/ In m urls)
    /\ node_type G' a = Some "article"
    /\ (forall m, m <> a -> contains G m = true ->
                  get (node_ G') m = get (node_ G) m)
    /\ (forall m, m <> a -> contains G m = false -> contains G' m = true ->
                  node_type G' m = Some "url")
    /\ (forall x y, has_edge G' x y = true <->
                    has_edge G x y = true \/ (x = a /\ In y urls)).
Proof.
  intros Hinv. unfold link_article.
  destruct (add_node_spec a [("type", "article")] G Hinv)
    as (G1 & E1 & Hinv1 & Hc1 & Hget1 & Hedge1).
  rewrite E1. cbn [bind].
  assert (contains G1 a = true) as Ha1 by (apply Hc1; now right).
  destruct (link_targets_spec a urls G1 Hinv1 Ha1)
    as (G' & -> & Hinv' & Hc & Hget & Hnew & Hedge).
  exists G'. split; [reflexivity|]. split; [assumption|].
  split; [|split; [|split; [|split]]].
  - intros m. rewrite Hc, Hc1. tauto.
  - rewrite (node_type_get G1 G' a (Hget a Ha1)).
    apply (add_node_type a "article" G G1 E1).
  - intros m N Hm. rewrite Hget by (apply Hc1; now left). now apply Hget1.
  - intros m N Hm Hm'. apply Hnew; [|assumption].
    apply contains_false_iff. intros Hm1. apply Hc1 in Hm1 as [Hm1| ->]; congruence.
  - intros x y. rewrite Hedge, Hedge1. reflexivity.
Qed.

Lemma link_article_typed a urls arts G G' :
  graph_inv G -> typed arts G ->
  link_article (Some a, urls) G = Ok G' ->
  typed (arts ++ [Some a]) G'.
Proof.
  intros Hinv [Hart Hurl] Hrun.
  destruct (link_article_spec a urls G Hinv)
    as (G2 & E & _ & Hc & Ha & Hget & Hnew & _).
  rewrite E in Hrun. injection Hrun as <-. split.
  - intros b Hb. apply in_app_or in Hb as [Hb|[[= ->]|[]]]; [|assumption].
    destruct (string_dec b a) as [->|N]; [assumption|].
    rewrite <- (Hart b Hb). apply node_type_get, Hget; [assumption|].
    eapply node_type_contains, Hart, Hb.
  - intros n Hn Hnot.
    assert (n <> a) as N by (intros ->; apply Hnot, in_or_app; right; now left).
    assert (~ In (Some n) arts) as Hnot' by (intros H; apply Hnot, in_or_app; now left).
    destruct (contains G n) eqn:Hold.
    + rewrite <- (Hurl n Hold Hnot'). now apply node_type_get, Hget.
    + now apply Hnew.
Qed.

Lemma build_spec data : forall G arts G',
  graph_inv G -> typed arts G ->
  for_each link_article data G = Ok G' ->
  graph_inv G'
  /\ typed (arts ++ keys data) G'
  /\ (forall m, contains G m = true -> contains G' m = true)
  /\ (forall x y, has_edge G x y = true -> has_edge G' x y = true)
  /\ (forall article urls, In (article, urls) data ->
        exists a, article = Some a
                  /\ forall url, In url urls ->
                       contains G' url = true /\ has_edge G' a url = true).
Proof.
  induction data as [|[article urls] data IH]; intros G arts G' Hinv Hty Hrun.
  - injection Hrun as <-. cbn [keys map]. rewrite app_nil_r.
    split; [assumption|]. split; [assumption|]. split; [auto|]. split; [auto|].
    intros ? ? [].
  - cbn [for_each] in Hrun. destruct article as [a|]; [|discriminate].
    destruct (link_article_spec a urls G Hinv)
      as (G1 & E & Hinv1 & Hc & _ & _ & _ & Hedge).
    pose proof (link_article_typed a urls arts G G1 Hinv Hty E) as Hty1.
    change (bind (link_article (Some a, urls) G)
                 (fun s' => for_each link_article data s') = Ok G') in Hrun.
    rewrite E in Hrun. cbn [bind] in Hrun.
    destruct (IH G1 (arts ++ [Some a])%list G' Hinv1 Hty1 Hrun)
      as (Hinv' & Hty' & Hcm & Hem & Hall).
    split; [assumption|]. split; [|split; [|split]].
    + cbn [keys map fst]. now rewrite <- app_assoc in Hty'.
    + intros m Hm. apply Hcm, Hc. now left.
    + intros x y Hxy. apply Hem, Hedge. now left.
    + intros article' urls' [[= <- <-]|Hin].
      * exists a. split; [reflexivity|]. intros url Hurl. split.
        -- apply Hcm, Hc. right. now right.
        -- apply Hem, Hedge. right. now split.
      * now apply Hall.
Qed.

Lemma typed_empty : typed [] empty.
Proof. split; [intros a []|]. intros n Hn. discriminate. Qed.

(** The construction completes exactly when no key is [None]. *)
Lemma create_network_graph_total (data : dict text (list string)) :
  (forall k, In k (keys data) -> k <> None) ->
  exists G, create_network_graph data = Ok G.
Proof.
  unfold create_network_graph, items.
  generalize empty_inv. generalize empty.
  induction data as [|[article urls] data IH]; intros G Hinv Hkeys; cbn [for_each].
  - now exists G.
  - destruct article as [a|]; [|now destruct (Hkeys None (or_introl eq_refl))].
    destruct (link_article_spec a urls G Hinv) as (G1 & E & Hinv1 & _).
    change (exists G0, bind (link_article (Some a, urls) G)
                            (fun s' => for_each link_article data s') = Ok G0).
    rewrite E. cbn [bind]. apply IH; [assumption|].
    intros k Hk. apply Hkeys. now right.
Qed.

End NxFacts.

Lemma create_network_graph_spec (data : dict text (list string)) G :
  create_network_graph data = Ok G ->
  graph_inv G
  /\ typed (keys data) G
  /\ (forall article urls, In (article, urls) (items data) ->
        exists a, article = Some a
                  /\ forall url, In url urls ->
                       Nx.contains G url = true /\ Nx.has_edge G a url = true).
Proof.
  intros Hrun.
  destruct (NxFacts.build_spec data Nx.empty [] G NxFacts.empty_inv
              NxFacts.typed_empty Hrun) as (Hinv & Hty & _ & _ & Hall).
  split; [exact Hinv|]. split; [exact Hty|exact Hall].
Qed.

Lemma add_url_node_present G url :
  Nx.contains G url = true -> add_url_node url G = Ok G.
Proof. unfold add_url_node. now intros ->. Qed.

Lemma add_url_node_fresh G url G' :
  Nx.contains G url = false -> add_url_node url G = Ok G' ->
  Nx.node_type G' url = Some "url".
Proof.
  unfold add_url_node. intros ->. cbn [negb]. apply NxFacts.add_node_type.
Qed.

(** C5.  When the construction returns a graph, every key of the input is
    a node of type [article]; every target of a key's list is a node, of
    type [article] when it is itself a key and of type [url] otherwise; the
    guarded addition leaves a graph that already has the node as it is, and
    tags the node [url] only when it was not there; the edge from the key
    to each of its targets is in the graph, and no ordered pair occurs
    twice among the edges, however often a target is repeated. *)
Theorem graph_nodes_and_edges (data : dict text (list string)) (G : Nx.DiGraph) :
  create_network_graph data = Ok G ->
  (forall article urls, In (article, urls) (items data) ->
     exists a,
       article = Some a
       /\ Nx.node_type G a = Some "article"
       /\ forall url, In url urls ->
            Nx.contains G url = true
            /\ (In (Some url) (keys data) -> Nx.node_type G url = Some "article")
            /\ (~ In (Some url) (keys data) -> Nx.node_type G url = Some "url")
            /\ Nx.has_edge G a url = true
            /\ In (a, url) (Nx.edges G))
  /\ NoDup (Nx.edges G)
  /\ (forall G0 url, Nx.contains G0 url = true -> add_url_node url G0 = Ok G0)
  /\ (forall G0 url G1, Nx.contains G0 url = false ->
        add_url_node url G0 = Ok G1 -> Nx.node_type G1 url = Some "url").
Proof.
  intros Hrun.
  destruct (create_network_graph_spec data G Hrun) as (Hinv & [Hart Hurl] & Hall).
  split; [|split; [|split]].
  - intros article urls Hin. destruct (Hall article urls Hin) as (a & -> & Htargets).
    exists a. split; [reflexivity|]. split.
    + apply Hart. unfold keys. now apply (in_map fst) in Hin.
    + intros url Hu. destruct (Htargets url Hu) as [Hc He].
      split; [assumption|]. split; [apply Hart|]. split; [now apply Hurl|].
      split; [assumption|]. now apply NxFacts.has_edge_In.
  - now apply NxFacts.edges_NoDup.
  - apply add_url_node_present.
  - apply add_url_node_fresh.
Qed.

Lemma graph_nodes_and_edges_witness :
  let data : dict text (list string) :=
    [(Some "A", ["https://helpedbyanerd.com/b"; "https://helpedbyanerd.com/c";
                 "https://helpedbyanerd.com/b"]);
     (Some "https://helpedbyanerd.com/b", [])] in
  exists G,
    create_network_graph data = Ok G
    /\ Nx.edges G = [("A", "https://helpedbyanerd.com/b");
                     ("A", "https://helpedbyanerd.com/c")]
    /\ NoDup (Nx.edges G)
    /\ exists a, Some "A" = Some a /\ Nx.node_type G a = Some "article".
Proof.
  intros data. eexists. split; [vm_compute; reflexivity|].
  split; [reflexivity|].
  match goal with
  | |- NoDup (Nx.edges ?G) /\ _ =>
      destruct (graph_nodes_and_edges data G eq_refl) as (Hall & Hnd & _)
  end.
  split; [exact Hnd|].
  destruct (Hall (Some "A") _ (or_introl eq_refl)) as (a & Ha & Hty & _).
  now exists a.
Defined.

(** C10.  When the construction returns a graph, a node has type [article]
    exactly when it is a key of the input, and every other node has type
    [url]; a string that is a target of an earlier article and the key of a
    later one ends with type [article]: adding an article node sets the
    type whatever was there, adding a url node is skipped for a node that
    is there. *)
Theorem node_types_final (data : dict text (list string)) (G : Nx.DiGraph) :
  create_network_graph data = Ok G ->
  (forall n, Nx.node_type G n = Some "article" <-> In (Some n) (keys data))
  /\ (forall n, Nx.contains G n = true -> ~ In (Some n) (keys data) ->
        Nx.node_type G n = Some "url")
  /\ (forall pre a1 urls1 mid s urls2 post,
        data = (pre ++ (a1, urls1) :: mid ++ (Some s, urls2) :: post)%list ->
        In s urls1 -> Nx.node_type G s = Some "article")
  /\ (forall G0 n G1, Nx.add_node (Some n) [("type", "article")] G0 = Ok G1 ->
        Nx.node_type G1 n = Some "article")
  /\ (forall G0 url, Nx.contains G0 url = true -> add_url_node url G0 = Ok G0).
Proof.
  intros Hrun.
  destruct (create_network_graph_spec data G Hrun) as (Hinv & [Hart Hurl] & Hall).
  split; [|split; [|split; [|split]]].
  - intros n. split; [|apply Hart]. intros Hty.
    destruct (in_dec (DictFacts.key_eq_dec (K := text)) (Some n) (keys data))
      as [Hin|Hnot]; [assumption|].
    rewrite (Hurl n (NxFacts.node_type_contains G n _ Hty) Hnot) in Hty.
    discriminate.
  - exact Hurl.
  - intros pre a1 urls1 mid s urls2 post -> _. apply Hart.
    unfold keys. rewrite map_app. apply in_or_app. right. cbn [map].
    right. rewrite map_app. apply in_or_app. right. now left.
  - intros G0 n G1. apply NxFacts.add_node_type.
  - apply add_url_node_present.
Qed.

Lemma node_types_final_witness :
  let data : dict text (list string) :=
    [(Some "A", ["https://helpedbyanerd.com/b"; "https://helpedbyanerd.com/c"]);
     (Some "https://helpedbyanerd.com/b", ["https://helpedbyanerd.com/c"])] in
  exists G,
    create_network_graph data = Ok G
    /\ Nx.node_type G "https://helpedbyanerd.com/b" = Some "article"
    /\ Nx.node_type G "https://helpedbyanerd.com/c" = Some "url".
Proof.
  intros data. eexists. split; [vm_compute; reflexivity|].
  match goal with
  | |- Nx.node_type ?G _ = _ /\ _ =>
      destruct (node_types_final data G eq_refl) as (Hiff & Hurl & Hlater & _)
  end.
  split.
  - apply (Hlater [] (Some "A")
             ["https://helpedbyanerd.com/b"; "https://helpedbyanerd.com/c"] []
             "https://helpedbyanerd.com/b" ["https://helpedbyanerd.com/c"] []).
    + reflexivity.
    + left. reflexivity.
  - apply Hurl; [reflexivity|].
    simpl. intuition discriminate.
Defined.

(** ** The extracted dictionaries *)

Lemma for_each_invariant {A S} (body : A -> S -> result S) (P : S -> Prop) xs :
  (forall x s s', In x xs -> P s -> body x s = Ok s' -> P s') ->
  forall s s', P s -> for_each body xs s = Ok s' -> P s'.
Proof.
  induction xs as [|x xs IH]; intros Hstep s s' Hs Hrun; simpl in Hrun.
  - now injection Hrun as <-.
  - destruct (body x s) as [s1|] eqn:E; simpl in Hrun; [|discriminate].
    apply (IH (fun y t t' Hy => Hstep y t t' (or_intror Hy)) s1 s');
      [|assumption].
    apply (Hstep x s s1); auto. now left.
Qed.

(** Both results of [extract_content] are dictionaries, and every link
    recorded for a title passed the filter. *)
Lemma extract_content_wf tree al l2t :
  extract_content tree = Ok (al, l2t) ->
  wf al /\ wf l2t
  /\ forall t links l, In (t, links) al -> In l links ->
       is_internal_and_not_image l = true /\ Str.contains "empfiehlt" l = false.
Proof.
  unfold extract_content. destruct (findall _ _ _) as [its|]; simpl; [|discriminate].
  apply (for_each_invariant extract_item
           (fun st => wf (fst st) /\ wf (snd st)
                      /\ forall t links l, In (t, links) (fst st) -> In l links ->
                           is_internal_and_not_image l = true
                           /\ Str.contains "empfiehlt" l = false)).
  - intros item st st' _ (W1 & W2 & Hl) E. rewrite extract_item_eq in E.
    destruct (Re.findall (body (item_record item))) as [urls|]; simpl in E;
      [|discriminate].
    injection E as <-. cbn [fst snd].
    split; [now apply DictFacts.wf_set|]. split; [now apply DictFacts.wf_set|].
    intros t links l Hin Hlink. apply DictFacts.In_set in Hin as [[= -> ->]|Hin].
    + unfold internal_urls_of in Hlink. apply filter_In in Hlink as [_ Hk].
      apply andb_true_iff in Hk as [H1 H2]. now apply negb_true_iff in H2.
    + now apply (Hl t links l).
  - split; [constructor|]. split; [constructor|]. intros ? ? ? [].
Qed.

(** * Further properties of the scan *)

Module ScanFacts.
Import Str StrFacts Re ReFacts.

Lemma run_all_class : forall s, all_class (run s) = true.
Proof.
  induction s as [|c s IH]; [reflexivity|].
  cbn [run]. destruct (class_char c) eqn:Hc; [|reflexivity].
  cbn [all_class]. now rewrite Hc, IH.
Qed.

Lemma run_split : forall s, exists post, s = run s ++ post /\ stops post.
Proof.
  induction s as [|c s IH].
  - now exists EmptyString.
  - cbn [run]. destruct (class_char c) eqn:Hc.
    + destruct IH as (post & E & Hp). exists post. split; [|assumption].
      simpl. now f_equal.
    + exists (String c s). now split.
Qed.

Lemma run_app r post :
  all_class r = true -> stops post -> run (r ++ post) = r.
Proof.
  intros Hr Hp. induction r as [|c r IH].
  - simpl. destruct post as [|c p]; [reflexivity|]. cbn [run]. simpl in Hp.
    now rewrite Hp.
  - cbn [all_class] in Hr. apply andb_true_iff in Hr as [Hc Hr].
    simpl. rewrite Hc. now rewrite IH.
Qed.

Lemma scheme_tail_shape s m :
  scheme_tail s = Some m ->
  exists r post, m = "://" ++ r /\ r <> EmptyString /\ all_class r = true
                 /\ s = m ++ post /\ stops post.
Proof.
  unfold scheme_tail.
  destruct (strip_prefix "://" s) as [t|] eqn:E; [|discriminate].
  apply strip_prefix_sound in E. subst s. rewrite group_star_run.
  destruct (run_split t) as (post & Et & Hp).
  pose proof (run_all_class t) as Hall.
  destruct (run t) as [|c r] eqn:Er; [discriminate|].
  intros [= <-]. exists (String c r), post.
  split; [reflexivity|]. split; [discriminate|]. split; [assumption|].
  split; [|assumption]. rewrite Et at 1. reflexivity.
Qed.

Lemma scheme_tail_complete r post :
  r <> EmptyString -> all_class r = true -> stops post ->
  scheme_tail ("://" ++ r ++ post) = Some ("://" ++ r).
Proof.
  intros Hne Hr Hp. unfold scheme_tail.
  rewrite (strip_prefix_complete "://" (r ++ post)).
  rewrite group_star_run, run_app by assumption.
  destruct r; [contradiction|reflexivity].
Qed.

Lemma match_at_shape s m :
  match_at s = Some m ->
  exists r post,
    (m = "http://" ++ r \/ m = "https://" ++ r)
    /\ r <> EmptyString /\ all_class r = true
    /\ s = m ++ post /\ stops post.
Proof.
  unfold match_at.
  destruct (strip_prefix "http" s) as [t|] eqn:E; [|discriminate].
  apply strip_prefix_sound in E. subst s.
  assert (forall x, match scheme_tail t with
                    | Some m0 => Some ("http" ++ m0) | None => None end = Some x ->
          exists r post,
            (x = "http://" ++ r \/ x = "https://" ++ r)
            /\ r <> EmptyString /\ all_class r = true
            /\ "http" ++ t = x ++ post /\ stops post) as Hplain.
  { intros x. destruct (scheme_tail t) as [m0|] eqn:E0; [|discriminate].
    intros [= <-]. apply scheme_tail_shape in E0 as (r & post & -> & Hne & Hr & -> & Hp).
    exists r, post. repeat split; auto. }
  destruct t as [|c t']; [apply Hplain|].
  destruct (Ascii.eqb_spec c "s") as [->|N].
  - destruct (scheme_tail t') as [m0|] eqn:E0; [|apply Hplain].
    intros [= <-]. apply scheme_tail_shape in E0 as (r & post & -> & Hne & Hr & -> & Hp).
    exists r, post. repeat split; auto.
  - intros Hm. apply Hplain.
    destruct c as [[] [] [] [] [] [] [] []]; try exact Hm; now contradiction N.
Qed.

Lemma match_at_complete r post :
  r <> EmptyString -> all_class r = true -> stops post ->
  match_at ("http://" ++ r ++ post) = Some ("http://" ++ r)
  /\ match_at ("https://" ++ r ++ post) = Some ("https://" ++ r).
Proof.
  intros Hne Hr Hp.
  pose proof (scheme_tail_complete r post Hne Hr Hp) as Ht.
  split; unfold match_at.
  - change (strip_prefix "http" ("http://" ++ r ++ post))
      with (Some ("://" ++ r ++ post)).
    cbv beta iota. change ("://" ++ r ++ post) with (String ":" ("//" ++ r ++ post)) at 1.
    cbv beta iota. now rewrite Ht.
  - change (strip_prefix "http" ("https://" ++ r ++ post))
      with (Some (String "s" ("://" ++ r ++ post))).
    cbv beta iota. now rewrite Ht.
Qed.

Lemma findall_from_past s : forall skip,
  String.length s <= skip -> findall_from skip s = [].
Proof.
  induction s as [|c s IH]; intros skip Hlen; [reflexivity|].
  simpl in Hlen. destruct skip as [|k]; [lia|].
  simpl. apply IH. lia.
Qed.

Lemma findall_from_In s : forall skip m,
  In m (findall_from skip s) -> exists t, match_at t = Some m.
Proof.
  induction s as [|c s IH]; simpl; intros skip m Hin; [contradiction|].
  destruct skip as [|k]; [|eapply IH, Hin].
  destruct (match_at (String c s)) as [m0|] eqn:E; [|eapply IH, Hin].
  destruct Hin as [<-|Hin]; [now exists (String c s)|eapply IH, Hin].
Qed.

Lemma drop_app m : forall post, drop (String.length m) (m ++ post) = post.
Proof. induction m as [|c m IH]; intros post; simpl; [now destruct post|apply IH]. Qed.

Lemma length_append (a b : string) :
  String.length (a ++ b) = String.length a + String.length b.
Proof. induction a as [|c a IH]; simpl; [reflexivity|now rewrite IH]. Qed.

Lemma findall_interleave_bounded n : forall s,
  String.length s <= n ->
  exists gaps last,
    length gaps = length (findall_str s)
    /\ s = interleave gaps (findall_str s) last.
Proof.
  induction n as [|n IH]; intros s Hlen.
  - destruct s; [|simpl in Hlen; lia]. now exists [], EmptyString.
  - destruct s as [|c s']; [now exists [], EmptyString|].
    rewrite findall_str_unfold.
    destruct (match_at (String c s')) as [m|] eqn:E.
    + pose proof (match_at_nonempty _ _ E) as Hm.
      destruct (match_at_prefix _ _ E) as [post Es].
      rewrite Es, drop_app.
      destruct (IH post) as (gaps & last & Hl & Hp).
      { assert (String.length (String c s') = String.length (m ++ post)) as El
          by now rewrite Es.
        rewrite length_append in El. simpl in El, Hlen. lia. }
      exists (EmptyString :: gaps), last. split; [simpl; now rewrite Hl|].
      cbn [interleave]. simpl. now rewrite <- Hp.
    + destruct (IH s') as (gaps & last & Hl & Hp); [simpl in Hlen; lia|].
      destruct gaps as [|g gaps], (findall_str s') as [|m ms] eqn:Ef;
        try discriminate Hl.
      * exists [], (String c last). split; [reflexivity|]. simpl in *. now f_equal.
      * exists (String c g :: gaps), last. split; [assumption|].
        cbn [interleave] in *. simpl. now f_equal.
Qed.

Lemma findall_shape body m :
  In m (findall_str body) ->
  exists r,
    (m = "http://" ++ r \/ m = "https://" ++ r)
    /\ r <> EmptyString
    /\ all_class r = true.
Proof.
  intros Hin. apply findall_from_In in Hin as [t Ht].
  apply match_at_shape in Ht as (r & post & Hm & Hne & Hr & _).
  now exists r.
Qed.

End ScanFacts.

(** X1.  Every match of the scan is [http://] or [https://] followed by a
    non-empty run of characters of the class, and nothing else. *)
Theorem findall_match_shape (body m : string) :
  In m (Re.findall_str body) ->
  exists r,
    (m = "http://" ++ r \/ m = "https://" ++ r)
    /\ r <> EmptyString
    /\ all_class r = true.
Proof.
  intros Hin. destruct (ScanFacts.findall_shape body m Hin) as (r & Hr).
  now exists r.
Qed.

Lemma findall_match_shape_witness :
  let body := "see https://helpedbyanerd.com/a, then" in
  let m := "https://helpedbyanerd.com/a," in
  In m (Re.findall_str body)
  /\ exists r, (m = "http://" ++ r \/ m = "https://" ++ r)
               /\ r <> EmptyString /\ all_class r = true.
Proof.
  intros body m.
  assert (In m (Re.findall_str body)) as H by (vm_compute; left; reflexivity).
  split; [exact H|]. exact (findall_match_shape body m H).
Defined.

(** X2.  Scanning a match again finds exactly that match: the links handed
    on by the scan are fixed points of it. *)
Theorem findall_rescan (body m : string) :
  In m (Re.findall_str body) -> Re.findall_str m = [m].
Proof.
  intros Hin. apply ScanFacts.findall_shape in Hin as (r & Hm & Hne & Hr).
  destruct (ScanFacts.match_at_complete r EmptyString Hne Hr I) as [H1 H2].
  rewrite StrFacts.append_nil_r in H1, H2.
  assert (Re.match_at m = Some m) as Hmatch by (destruct Hm as [->| ->]; assumption).
  rewrite ReFacts.findall_str_unfold, Hmatch. f_equal.
  rewrite <- ReFacts.findall_from_drop. apply ScanFacts.findall_from_past. lia.
Qed.

Lemma findall_rescan_witness :
  let body := "see https://helpedbyanerd.com/a, then" in
  let m := "https://helpedbyanerd.com/a," in
  In m (Re.findall_str body) /\ Re.findall_str m = [m].
Proof.
  intros body m.
  assert (In m (Re.findall_str body)) as H by (vm_compute; left; reflexivity).
  split; [exact H|]. exact (findall_rescan body m H).
Defined.

(** X3.  The matches lie in the body in the order of the result and do not
    overlap: the body is a gap, the first match, a gap, the second match,
    and so on, up to a last piece. *)
Theorem findall_interleave (body : string) :
  exists gaps last,
    length gaps = length (Re.findall_str body)
    /\ body = interleave gaps (Re.findall_str body) last.
Proof. apply (ScanFacts.findall_interleave_bounded (String.length body)). lia. Qed.

(** X4.  A URL-shaped piece is found where it stands: when the scan is at
    [http://] or [https://] followed by a non-empty run of class characters
    that ends at the end of the text or before a character outside the
    class, the first match is that piece, whole. *)
Theorem findall_finds_url (r post : string) :
  r <> EmptyString -> all_class r = true -> stops post ->
  Re.findall_str ("http://" ++ r ++ post)
    = ("http://" ++ r) :: Re.findall_str post
  /\ Re.findall_str ("https://" ++ r ++ post)
    = ("https://" ++ r) :: Re.findall_str post.
Proof.
  intros Hne Hr Hp.
  destruct (ScanFacts.match_at_complete r post Hne Hr Hp) as [H1 H2].
  split; rewrite ReFacts.findall_str_unfold.
  - rewrite H1. f_equal.
    change ("http://" ++ r ++ post) with (("http://" ++ r) ++ post).
    now rewrite ScanFacts.drop_app.
  - rewrite H2. f_equal.
    change ("https://" ++ r ++ post) with (("https://" ++ r) ++ post).
    now rewrite ScanFacts.drop_app.
Qed.

Lemma findall_finds_url_witness :
  Re.findall_str ("http://" ++ "helpedbyanerd.com/a" ++ " and more")
    = ("http://" ++ "helpedbyanerd.com/a") :: Re.findall_str " and more"
  /\ Re.findall_str ("https://" ++ "helpedbyanerd.com/a" ++ " and more")
    = ("https://" ++ "helpedbyanerd.com/a") :: Re.findall_str " and more".
Proof.
  apply (findall_finds_url "helpedbyanerd.com/a" " and more").
  - discriminate.
  - vm_compute. reflexivity.
  - vm_compute. reflexivity.
Defined.

(** * Further properties of the extraction *)

Module ExtractFacts.
Import DictFacts.

Lemma for_each_raise {A S} (body : A -> S -> result S) xs : forall s e,
  for_each body xs s = Raise e -> exists x s0, In x xs /\ body x s0 = Raise e.
Proof.
  induction xs as [|x xs IH]; intros s e Hrun; simpl in Hrun; [discriminate|].
  destruct (body x s) as [s1|e1] eqn:E; simpl in Hrun.
  - destruct (IH s1 e Hrun) as (y & s0 & Hy & Hb). exists y, s0. split; [now right|assumption].
  - injection Hrun as <-. exists x, s. split; [now left|assumption].
Qed.

Lemma for_each_extract_ok its : forall st,
  (forall it, In it its -> body (item_record it) <> None) ->
  exists st', for_each extract_item its st = Ok st'.
Proof.
  induction its as [|it its IH]; intros st Hall; simpl.
  - now exists st.
  - rewrite extract_item_eq.
    destruct (body (item_record it)) as [b|] eqn:Eb;
      [|now destruct (Hall it (or_introl eq_refl))].
    simpl. apply IH. intros it' Hit'. apply Hall. now right.
Qed.

Lemma extract_item_ok item st st' :
  extract_item item st = Ok st' ->
  exists b,
    body (item_record item) = Some b
    /\ st' = (set (title (item_record item))
                  (internal_urls_of (Re.findall_str b)) (fst st),
              set (link (item_record item)) (title (item_record item)) (snd st)).
Proof.
  rewrite extract_item_eq. destruct (body (item_record item)) as [b|]; simpl;
    [|discriminate].
  intros [= <-]. now exists b.
Qed.

Lemma for_each_extract_keeps_title its : forall st st' (k : text),
  for_each extract_item its st = Ok st' ->
  (forall it, In it its -> title (item_record it) <> k) ->
  get (fst st') k = get (fst st) k.
Proof.
  induction its as [|it its IH]; simpl; intros st st' k Hrun Hother.
  - now injection Hrun as <-.
  - destruct (extract_item it st) as [st1|e] eqn:E; simpl in Hrun; [|discriminate].
    rewrite (IH st1 st' k Hrun) by (intros it' Hit'; apply Hother; now right).
    apply extract_item_ok in E as (b & _ & ->). cbn [fst].
    apply get_set_other. apply Hother. now left.
Qed.

Lemma for_each_extract_keys its : forall st st',
  for_each extract_item its st = Ok st' ->
  (forall t, mem t (fst st') = true <->
             mem t (fst st) = true \/ exists it, In it its /\ title (item_record it) = t)
  /\ (forall l, mem l (snd st') = true <->
                mem l (snd st) = true \/ exists it, In it its /\ link (item_record it) = l).
Proof.
  induction its as [|it its IH]; simpl; intros st st' Hrun.
  - injection Hrun as <-. split; intros k; split; auto; intros [H|(it & [] & _)]; auto.
  - destruct (extract_item it st) as [st1|e] eqn:E; simpl in Hrun; [|discriminate].
    destruct (IH st1 st' Hrun) as [Ht Hl].
    apply extract_item_ok in E as (b & _ & ->). cbn [fst snd] in Ht, Hl.
    split; intros k.
    + rewrite Ht, mem_set, orb_true_iff, (key_eqb_eq (title (item_record it)) k).
      split.
      * intros [[E|H]|(it' & Hin & E)]; eauto.
      * intros [H|(it' & [<-|Hin] & E)]; eauto.
    + rewrite Hl, mem_set, orb_true_iff, (key_eqb_eq (link (item_record it)) k).
      split.
      * intros [[E|H]|(it' & Hin & E)]; eauto.
      * intros [H|(it' & [<-|Hin] & E)]; eauto.
Qed.

Lemma for_each_extract_closed : forall its st st',
  for_each extract_item its st = Ok st' ->
  (forall l t, get (snd st) l = Some t -> mem t (fst st) = true) ->
  (forall l t, get (snd st') l = Some t -> mem t (fst st') = true)
  /\ length (keys (fst st')) <= length (keys (fst st)) + length its
  /\ length (keys (snd st')) <= length (keys (snd st)) + length its.
Proof.
  induction its as [|it its IH]; simpl; intros st st' Hr Hst.
    - injection Hr as <-. split; [assumption|]. lia.
    - destruct (extract_item it st) as [st1|e] eqn:E; simpl in Hr; [|discriminate].
      apply extract_item_ok in E as (b & _ & ->).
      destruct (IH _ st' Hr) as (H1 & H2 & H3).
      + cbn [fst snd]. intros l t Hg. rewrite mem_set. apply orb_true_iff.
        destruct (key_eq_dec (link (item_record it)) l) as [<-|N].
        * rewrite get_set_same in Hg. injection Hg as <-.
          left. apply key_eqb_refl.
        * rewrite get_set_other in Hg by assumption. right. eauto.
      + split; [assumption|]. cbn [fst snd] in H2, H3.
        assert (forall (V : Type) (d : dict text V) k v,
                  length (keys (set k v d)) <= S (length (keys d))) as Hlen.
        { intros V d k v. destruct (mem k d) eqn:Hm.
          - rewrite keys_set_mem by assumption. lia.
          - rewrite keys_set_fresh by assumption. rewrite length_app. simpl. lia. }
        pose proof (Hlen _ (fst st) (title (item_record it))
                      (internal_urls_of (Re.findall_str b))).
        pose proof (Hlen _ (snd st) (link (item_record it)) (title (item_record it))).
        lia.
Qed.

Lemma titles_closed tree al l2t :
  extract_content tree = Ok (al, l2t) ->
  forall l t, get l2t l = Some t -> mem t al = true.
Proof.
  rewrite extract_content_eq. intros Hrun.
  destruct (for_each_extract_closed _ _ _ Hrun) as (H1 & _); [discriminate|].
  exact H1.
Qed.

End ExtractFacts.

(** X5.  [extract_content] returns exactly when no item has a content
    element that is present and empty; otherwise it raises, and the only
    exception it raises is the [TypeError] of the scan. *)
Theorem extract_content_outcome (tree : ElementTree) :
  ((exists al l2t, extract_content tree = Ok (al, l2t)) <->
   (forall item, In item (items_of tree) -> body (item_record item) <> None))
  /\ (forall e, extract_content tree = Raise e -> e = TypeError).
Proof.
  rewrite extract_content_eq. fold (items_of tree). split; [split|].
  - intros (al & l2t & Hrun) item Hin Hbody.
    rewrite (for_each_extract_raises _ _ item Hin Hbody) in Hrun. discriminate.
  - intros Hall.
    destruct (ExtractFacts.for_each_extract_ok (items_of tree) ([], []) Hall)
      as ([al l2t] & Hrun).
    now exists al, l2t.
  - intros e Hrun. apply ExtractFacts.for_each_raise in Hrun as (x & s0 & _ & Hx).
    now apply extract_item_raise in Hx.
Qed.

(** X6.  Last write wins, for every title and every link: when
    [extract_content] returns, an item after which no item has the same
    title determines the list recorded for its title, the internal links of
    its own body, and an item after which no item has the same link
    determines the title recorded for its link; a key is present exactly
    when some item carries it. *)
Theorem extract_content_last_wins tree al l2t pre item post :
  extract_content tree = Ok (al, l2t) ->
  items_of tree = (pre ++ item :: post)%list ->
  ((forall it, In it post -> title (item_record it) <> title (item_record item)) ->
     exists b, body (item_record item) = Some b
               /\ get al (title (item_record item))
                  = Some (internal_urls_of (Re.findall_str b)))
  /\ ((forall it, In it post -> link (item_record it) <> link (item_record item)) ->
        get l2t (link (item_record item)) = Some (title (item_record item)))
  /\ (forall t, mem t al = true <->
                exists it, In it (items_of tree) /\ title (item_record it) = t)
  /\ (forall l, mem l l2t = true <->
                exists it, In it (items_of tree) /\ link (item_record it) = l).
Proof.
  intros Hrun Hits. rewrite extract_content_eq in Hrun. fold (items_of tree) in Hrun.
  pose proof (ExtractFacts.for_each_extract_keys _ _ _ Hrun) as [Hkt Hkl].
  rewrite Hits in Hrun. rewrite for_each_app in Hrun.
  destruct (for_each extract_item pre ([], [])) as [st1|] eqn:E1; simpl in Hrun;
    [|discriminate].
  destruct (extract_item item st1) as [st2|] eqn:E2; simpl in Hrun; [|discriminate].
  apply ExtractFacts.extract_item_ok in E2 as (b & Hb & ->).
  split; [|split; [|split]].
  - intros Hlast. exists b. split; [assumption|].
    rewrite (ExtractFacts.for_each_extract_keeps_title post _ (al, l2t) _ Hrun Hlast
             : get al _ = _).
    cbn [fst]. apply DictFacts.get_set_same.
  - intros Hlast.
    rewrite (for_each_extract_keeps_key post _ (al, l2t) _ Hrun Hlast : get l2t _ = _).
    cbn [snd]. apply DictFacts.get_set_same.
  - intros t. rewrite (Hkt t). cbn [fst]. split; [intros [H|H]; [discriminate|assumption]|auto].
  - intros l. rewrite (Hkl l). cbn [snd]. split; [intros [H|H]; [discriminate|assumption]|auto].
Qed.

Lemma extract_content_last_wins_witness :
  let a := Elem "item" None
             [Elem "title" (Some "T") []; Elem "link" (Some "https://helpedbyanerd.com/t") [];
              Elem content_tag (Some "old https://helpedbyanerd.com/x") []] in
  let b := Elem "item" None
             [Elem "title" (Some "T") []; Elem "link" (Some "https://helpedbyanerd.com/t2") [];
              Elem content_tag (Some "new https://helpedbyanerd.com/y") []] in
  let tree := {| getroot := Elem "rss" None [Elem "channel" None [a; b]] |} in
  exists al l2t,
    extract_content tree = Ok (al, l2t)
    /\ items_of tree = ([a] ++ b :: [])%list
    /\ get al (Some "T") = Some ["https://helpedbyanerd.com/y"]
    /\ get l2t (Some "https://helpedbyanerd.com/t2") = Some (Some "T").
Proof.
  intros a b tree. eexists. eexists.
  split; [vm_compute; reflexivity|]. split; [reflexivity|].
  match goal with
  | |- get ?al _ = _ /\ get ?l2t _ = _ =>
      destruct (extract_content_last_wins tree al l2t [a] b [] eq_refl eq_refl)
        as (H1 & H2 & _)
  end.
  split.
  - destruct (H1 (fun it (H : In it []) => match H with end)) as (body0 & Hb & Hg).
    injection Hb as <-. exact Hg.
  - exact (H2 (fun it (H : In it []) => match H with end)).
Defined.

(** X7.  The two dictionaries [extract_content] returns fit together: every
    title recorded for a link is a key of the article dictionary, both have
    no more keys than there are items, and both are empty for a document
    without items. *)
Theorem extract_content_titles_closed tree al l2t :
  extract_content tree = Ok (al, l2t) ->
  (forall l t, get l2t l = Some t -> mem t al = true)
  /\ length (keys al) <= length (items_of tree)
  /\ length (keys l2t) <= length (items_of tree)
  /\ (items_of tree = [] -> al = [] /\ l2t = []).
Proof.
  rewrite extract_content_eq. fold (items_of tree). intros Hrun.
  pose proof ExtractFacts.for_each_extract_closed as Hgen.
  destruct (Hgen _ _ _ Hrun) as (H1 & H2 & H3); [discriminate|].
  cbn [fst snd] in *. split; [assumption|]. split; [simpl in H2; lia|].
  split; [simpl in H3; lia|].
  intros Hnil. rewrite Hnil in Hrun. simpl in Hrun. injection Hrun as <- <-. now split.
Qed.

Lemma extract_content_titles_closed_witness :
  let a := Elem "item" None
             [Elem "title" (Some "A") []; Elem "link" (Some "https://helpedbyanerd.com/a") []] in
  let tree := {| getroot := Elem "rss" None [Elem "channel" None [a; a]] |} in
  let al : dict text (list string) := [(Some "A", [])] in
  let l2t : dict text text := [(Some "https://helpedbyanerd.com/a", Some "A")] in
  extract_content tree = Ok (al, l2t)
  /\ (forall l t, get l2t l = Some t -> mem t al = true)
  /\ length (keys al) <= length (items_of tree).
Proof.
  intros a tree al l2t.
  assert (extract_content tree = Ok (al, l2t)) as H by reflexivity.
  destruct (extract_content_titles_closed tree al l2t H) as (H1 & H2 & _).
  split; [exact H|]. split; [exact H1|exact H2].
Defined.

(** X8.  Extraction and diagram fit together: whenever an extracted link of
    an article is the canonical link of an item, the diagram generated from
    the two extracted dictionaries contains the edge line from the article
    to the title recorded for that link: two spaces, the source identifier
    and quoted title in brackets, the arrow, the target identifier and
    quoted title in brackets, a semicolon and a line feed. *)
Theorem extracted_link_gives_edge tree al l2t t links l t' :
  extract_content tree = Ok (al, l2t) ->
  In (t, links) (items al) ->
  In l links ->
  get l2t (Some l) = Some t' ->
  exists source_id target_id diagram,
    get (article_ids al) t = Some source_id
    /\ get (article_ids al) t' = Some target_id
    /\ generate_mermaid_diagram al l2t = Ok diagram
    /\ Str.is_substring
         ("  " ++ source_id ++ "[" ++ String "034" EmptyString
               ++ Str.format t ++ String "034" EmptyString ++ "] --> "
               ++ target_id ++ "[" ++ String "034" EmptyString
               ++ Str.format t' ++ String "034" EmptyString ++ "];"
               ++ String "010" EmptyString)
         diagram.
Proof.
  intros Hrun Hin Hl Hres.
  pose proof (ExtractFacts.titles_closed tree al l2t Hrun _ _ Hres) as Hkey.
  apply DictFacts.mem_In_keys in Hkey.
  assert (get_default l2t (Some l) unknown_article = t') as Hd
    by (unfold get_default; now rewrite Hres).
  assert (In (edge_statement (id_of (article_ids al) t) t
                (id_of (article_ids al) t') t')
             (diagram_statements al l2t)) as Hstmt.
  { apply DiagramFacts.diagram_statements_In. exists t, links, l.
    rewrite Hd. repeat split; assumption. }
  assert (Str.is_substring
            (edge_statement (id_of (article_ids al) t) t
               (id_of (article_ids al) t') t')
            (mermaid_header ++ concat_lines (diagram_statements al l2t))) as Hsub
    by (apply StrFacts.is_substring_app_r, DiagramFacts.concat_lines_In, Hstmt).
  exists (id_of (article_ids al) t), (id_of (article_ids al) t'),
    (mermaid_header ++ concat_lines (diagram_statements al l2t)).
  split; [|split; [|split; [|exact Hsub]]].
  - apply id_of_get, IdFacts.article_ids_mem. unfold keys.
    now apply (in_map fst) in Hin.
  - now apply id_of_get, IdFacts.article_ids_mem.
  - apply DiagramFacts.generate_mermaid_diagram_text.
Qed.

Lemma extracted_link_gives_edge_witness :
  let a := Elem "item" None
             [Elem "title" (Some "A") []; Elem "link" (Some "https://helpedbyanerd.com/a") []] in
  let b := Elem "item" None
             [Elem "title" (Some "B") []; Elem "link" (Some "https://helpedbyanerd.com/b") [];
              Elem content_tag (Some "read https://helpedbyanerd.com/a first") []] in
  let tree := {| getroot := Elem "rss" None [Elem "channel" None [a; b]] |} in
  let al : dict text (list string) :=
    [(Some "A", []); (Some "B", ["https://helpedbyanerd.com/a"])] in
  let l2t : dict text text :=
    [(Some "https://helpedbyanerd.com/a", Some "A");
     (Some "https://helpedbyanerd.com/b", Some "B")] in
  let q := String "034" EmptyString in
  let nl := String "010" EmptyString in
  let line := "  A1[" ++ q ++ "B" ++ q ++ "] --> A0[" ++ q ++ "A" ++ q ++ "];" ++ nl in
  extract_content tree = Ok (al, l2t)
  /\ generate_mermaid_diagram al l2t = Ok ("graph TD;" ++ nl ++ line)
  /\ Str.is_substring line ("graph TD;" ++ nl ++ line).
Proof.
  intros a b tree al l2t q nl line.
  assert (extract_content tree = Ok (al, l2t)) as H by (vm_compute; reflexivity).
  assert (generate_mermaid_diagram al l2t = Ok ("graph TD;" ++ nl ++ line)) as H5
    by (vm_compute; reflexivity).
  split; [exact H|]. split; [exact H5|].
  destruct (extracted_link_gives_edge tree al l2t (Some "B")
              ["https://helpedbyanerd.com/a"] "https://helpedbyanerd.com/a" (Some "A") H)
    as (source_id & target_id & diagram & Hs & Ht & Hd & Hsub).
  - right. left. reflexivity.
  - left. reflexivity.
  - reflexivity.
  - assert (source_id = "A1") as -> by (vm_compute in Hs; now injection Hs).
    assert (target_id = "A0") as -> by (vm_compute in Ht; now injection Ht).
    rewrite H5 in Hd. injection Hd as <-. exact Hsub.
Defined.

(** * Further properties of the graph *)

Module BuildFacts.
Import DictFacts Nx NxFacts.

Lemma build_exact data : forall G G',
  graph_inv G ->
  for_each link_article data G = Ok G' ->
  graph_inv G'
  /\ (forall x y, has_edge G' x y = true <->
        has_edge G x y = true \/ exists urls, In (Some x, urls) data /\ In y urls)
  /\ (forall m, contains G' m = true <->
        contains G m = true \/ In (Some m) (keys data)
        \/ exists a urls, In (a, urls) data /\ In m urls).
Proof.
  induction data as [|[article urls] data IH]; intros G G' Hinv Hrun.
  - injection Hrun as <-. split; [assumption|]. split.
    + intros x y. split; [auto|]. intros [H|(u & [] & _)]. assumption.
    + intros m. split; [auto|]. intros [H|[[]|(a & u & [] & _)]]. assumption.
  - cbn [for_each] in Hrun. destruct article as [a|]; [|discriminate].
    destruct (link_article_spec a urls G Hinv)
      as (G1 & E & Hinv1 & Hc & _ & _ & _ & Hedge).
    change (bind (link_article (Some a, urls) G)
                 (fun s' => for_each link_article data s') = Ok G') in Hrun.
    rewrite E in Hrun. cbn [bind] in Hrun.
    destruct (IH G1 G' Hinv1 Hrun) as (Hinv' & He & Hn).
    split; [assumption|]. split.
    + intros x y. rewrite He, Hedge. split.
      * intros [[H|[-> Hy]]|(u & Hin & Hy)].
        -- now left.
        -- right. exists urls. split; [now left|assumption].
        -- right. exists u. split; [now right|assumption].
      * intros [H|(u & [[= <- <-]|Hin] & Hy)].
        -- left. now left.
        -- left. right. now split.
        -- right. now exists u.
    + intros m. rewrite Hn, Hc. cbn [keys map fst]. split.
      * intros [[H|[->|Hm]]|[Hk|(b & u & Hin & Hm)]].
        -- now left.
        -- right. left. now left.
        -- right. right. exists (Some a), urls. split; [now left|assumption].
        -- right. left. now right.
        -- right. right. exists b, u. split; [now right|assumption].
      * intros [H|[[[= ->]|Hk]|(b & u & [[= <- <-]|Hin] & Hm)]].
        -- left. now left.
        -- left. right. now left.
        -- right. now left.
        -- left. right. now right.
        -- right. right. now exists b, u.
Qed.

Lemma build_outcome data : forall G,
  graph_inv G ->
  ((forall k, In k (keys data) -> k <> None) ->
     exists G', for_each link_article data G = Ok G')
  /\ (In None (keys data) -> for_each link_article data G = Raise ValueError).
Proof.
  induction data as [|[article urls] data IH]; intros G Hinv.
  - split; [intros _; now exists G|intros []].
  - cbn [for_each keys map fst]. destruct article as [a|].
    + destruct (link_article_spec a urls G Hinv) as (G1 & E & Hinv1 & _).
      change (for_each link_article ((Some a, urls) :: data) G)
        with (bind (link_article (Some a, urls) G)
                   (fun s' => for_each link_article data s')).
      change (s' <- link_article (Some a, urls) G ;; for_each link_article data s')
        with (bind (link_article (Some a, urls) G)
                   (fun s' => for_each link_article data s')).
      rewrite E. cbn [bind]. destruct (IH G1 Hinv1) as [Hok Hraise]. split.
      * intros Hk. apply Hok. intros k Hin. apply Hk. now right.
      * intros [H|H]; [discriminate|now apply Hraise].
    + split; [|reflexivity]. intros Hk. now destruct (Hk None (or_introl eq_refl)).
Qed.

Lemma In_edges_has_edge G u v :
  graph_inv G -> In (u, v) (edges G) -> has_edge G u v = true.
Proof.
  intros [_ _ Hws _] Hin. unfold edges in Hin.
  apply in_flat_map in Hin as ([u' su] & Hin & Hv).
  apply in_map_iff in Hv as (v' & [= <- <-] & Hv). cbn [fst snd] in *.
  unfold has_edge. rewrite (In_get (succ_ G) u' su Hws Hin).
  now apply mem_In_keys.
Qed.

Lemma out_degree_zero G n :
  (forall v, has_edge G n v = false) -> out_degree G n = 0.
Proof.
  unfold out_degree, has_edge. destruct (get (succ_ G) n) as [su|]; [|reflexivity].
  intros Hno. destruct su as [|[v d] su]; [reflexivity|].
  specialize (Hno v). unfold mem in Hno. cbn [get] in Hno.
  rewrite key_eqb_refl in Hno. discriminate.
Qed.

Lemma graph_exact_aux (data : dict text (list string)) (G : Nx.DiGraph) :
  create_network_graph data = Ok G ->
  (forall a u, In (a, u) (Nx.edges G) <->
               exists urls, In (Some a, urls) (items data) /\ In u urls)
  /\ (forall a u, Nx.has_edge G a u = true <-> In (a, u) (Nx.edges G))
  /\ (forall n, Nx.contains G n = true <->
                In (Some n) (keys data)
                \/ exists a urls, In (a, urls) (items data) /\ In n urls).
Proof.
  intros Hrun.
  destruct (build_exact data Nx.empty G NxFacts.empty_inv Hrun) as (Hinv & He & Hn).
  assert (forall a u, Nx.has_edge G a u = true <-> In (a, u) (Nx.edges G)) as Hiff.
  { intros a u. split; [apply NxFacts.has_edge_In|now apply In_edges_has_edge]. }
  split; [|split; [exact Hiff|]].
  - intros a u. rewrite <- Hiff, He. split; [intros [H|H]; [discriminate|assumption]|auto].
  - intros n. rewrite Hn. split; [intros [H|H]; [discriminate|assumption]|auto].
Qed.

Lemma graph_outcome_aux (data : dict text (list string)) :
  (exists G, create_network_graph data = Ok G) <->
  (forall k, In k (keys data) -> k <> None).
Proof.
  unfold create_network_graph, items.
  destruct (build_outcome data Nx.empty NxFacts.empty_inv) as [Hok Hraise].
  split; [|exact Hok].
  intros [G HG] k Hin ->. rewrite (Hraise Hin) in HG. discriminate.
Qed.

End BuildFacts.

(** X9.  The graph construction returns exactly when no key of its input
    is [None]; it raises nothing but the [ValueError] of adding [None] as a
    node. *)
Theorem create_network_graph_outcome (data : dict text (list string)) :
  ((exists G, create_network_graph data = Ok G) <->
   (forall k, In k (keys data) -> k <> None))
  /\ (forall e, create_network_graph data = Raise e -> e = ValueError).
Proof.
  unfold create_network_graph, items.
  destruct (BuildFacts.build_outcome data Nx.empty NxFacts.empty_inv) as [Hok Hraise].
  assert ({In None (keys data)} + {~ In None (keys data)}) as [Hn|Hn]
    by apply (in_dec (DictFacts.key_eq_dec (K := text))).
  - rewrite (Hraise Hn). split; [split|].
    + intros [G HG]. discriminate.
    + intros Hk. now destruct (Hk None Hn).
    + now intros e [= <-].
  - assert (forall k, In k (keys data) -> k <> None) as Hk by (intros k Hin ->; contradiction).
    destruct (Hok Hk) as [G' ->]. split; [split|].
    + intros _. exact Hk.
    + intros _. now exists G'.
    + discriminate.
Qed.

(** X10.  The graph has nothing but what the input says: its edges are
    exactly the pairs of a key and a target of that key's list, and its
    nodes are exactly the keys and the targets. *)
Theorem graph_exact (data : dict text (list string)) (G : Nx.DiGraph) :
  create_network_graph data = Ok G ->
  (forall a u, In (a, u) (Nx.edges G) <->
               exists urls, In (Some a, urls) (items data) /\ In u urls)
  /\ (forall a u, Nx.has_edge G a u = true <-> In (a, u) (Nx.edges G))
  /\ (forall n, Nx.contains G n = true <->
                In (Some n) (keys data)
                \/ exists a urls, In (a, urls) (items data) /\ In n urls).
Proof. apply BuildFacts.graph_exact_aux. Qed.

Lemma graph_exact_witness :
  let data : dict text (list string) :=
    [(Some "A", ["https://helpedbyanerd.com/b"; "https://helpedbyanerd.com/b"])] in
  exists G,
    create_network_graph data = Ok G
    /\ (forall a u, In (a, u) (Nx.edges G) <->
                    exists urls, In (Some a, urls) (items data) /\ In u urls)
    /\ Nx.edges G = [("A", "https://helpedbyanerd.com/b")].
Proof.
  intros data. eexists. split; [vm_compute; reflexivity|].
  match goal with
  | |- _ /\ Nx.edges ?G = _ =>
      destruct (graph_exact data G eq_refl) as (H1 & _)
  end.
  split; [exact H1|reflexivity].
Defined.

(** X11.  Only articles link: a node that is not a key of the input has no
    outgoing edge, so its number of connections is zero. *)
Theorem url_nodes_have_no_successors (data : dict text (list string)) (G : Nx.DiGraph) n :
  create_network_graph data = Ok G ->
  ~ In (Some n) (keys data) ->
  out_degree G n = 0 /\ forall v, Nx.has_edge G n v = false.
Proof.
  intros Hrun Hnot. destruct (BuildFacts.graph_exact_aux data G Hrun) as (He & Hiff & _).
  assert (forall v, Nx.has_edge G n v = false) as Hno.
  { intros v. destruct (Nx.has_edge G n v) eqn:E; [|reflexivity].
    apply Hiff, He in E as (urls & Hin & _). exfalso. apply Hnot.
    unfold keys. now apply (in_map fst) in Hin. }
  split; [now apply BuildFacts.out_degree_zero|exact Hno].
Qed.

Lemma url_nodes_have_no_successors_witness :
  let data : dict text (list string) := [(Some "A", ["https://helpedbyanerd.com/b"])] in
  exists G,
    create_network_graph data = Ok G
    /\ ~ In (Some "https://helpedbyanerd.com/b") (keys data)
    /\ out_degree G "https://helpedbyanerd.com/b" = 0.
Proof.
  intros data. eexists. split; [vm_compute; reflexivity|].
  assert (~ In (Some "https://helpedbyanerd.com/b") (keys data)) as Hnot
    by (simpl; intuition discriminate).
  split; [exact Hnot|].
  match goal with
  | |- out_degree ?G _ = 0 =>
      exact (proj1 (url_nodes_have_no_successors data G _ eq_refl Hnot))
  end.
Defined.

(** * The script: deduplicated lists *)

Module DedupFacts.
Import DictFacts.

Lemma keys_eq (d d' : dict text (list string)) :
  without_duplicates d d' -> keys d' = keys d.
Proof.
  unfold without_duplicates, keys.
  induction 1 as [|e e' d d' [Hk _] _ IH]; simpl; [reflexivity|].
  now rewrite Hk, IH.
Qed.

Lemma In_right (d d' : dict text (list string)) k v' :
  without_duplicates d d' -> In (k, v') d' ->
  exists v, In (k, v) d /\ list_of_set v v'.
Proof.
  unfold without_duplicates.
  induction 1 as [|[k0 v0] [k1 v1] d d' [Hk Hs] _ IH]; simpl; [intros []|].
  simpl in Hk, Hs. subst k1. intros [[= <- <-]|Hin].
  - exists v0. split; [now left|assumption].
  - destruct (IH Hin) as (v & Hv & Hl). exists v. split; [now right|assumption].
Qed.

Lemma In_left (d d' : dict text (list string)) k v :
  without_duplicates d d' -> In (k, v) d ->
  exists v', In (k, v') d' /\ list_of_set v v'.
Proof.
  unfold without_duplicates.
  induction 1 as [|[k0 v0] [k1 v1] d d' [Hk Hs] _ IH]; simpl; [intros []|].
  simpl in Hk, Hs. subst k1. intros [[= <- <-]|Hin].
  - exists v1. split; [now left|assumption].
  - destruct (IH Hin) as (v' & Hv & Hl). exists v'. split; [now right|assumption].
Qed.

Lemma targets_iff (d d' : dict text (list string)) k u :
  without_duplicates d d' ->
  (exists urls, In (k, urls) d' /\ In u urls) <->
  (exists urls, In (k, urls) d /\ In u urls).
Proof.
  intros Hd. split; intros (urls & Hin & Hu).
  - destruct (In_right d d' k urls Hd Hin) as (v & Hv & _ & Hmem).
    exists v. split; [assumption|]. now apply Hmem.
  - destruct (In_left d d' k urls Hd Hin) as (v' & Hv & _ & Hmem).
    exists v'. split; [assumption|]. now apply Hmem.
Qed.

Lemma same_members_length {A} (l l' : list A) :
  NoDup l -> NoDup l' -> (forall x, In x l <-> In x l') -> length l = length l'.
Proof.
  intros N N' Hm. apply Permutation_length. now apply NoDup_Permutation.
Qed.

End DedupFacts.

(** X12.  The graph of the deduplicated lists, in terms of the lists as
    extracted: it has an edge from an article to a target exactly when the
    target occurs in the article's list, a node is of type [article] exactly
    when it is a key, the number of connections of an article is the length
    of its deduplicated list, and edges, nodes and types are those of the
    graph built from the lists with their repetitions. *)
Theorem graph_of_without_duplicates (d d' : dict text (list string)) (G' : Nx.DiGraph) :
  without_duplicates d d' ->
  create_network_graph d' = Ok G' ->
  (forall a u, Nx.has_edge G' a u = true <->
               exists urls, In (Some a, urls) (items d) /\ In u urls)
  /\ (forall n, Nx.node_type G' n = Some "article" <-> In (Some n) (keys d))
  /\ (wf d -> forall a urls', In (Some a, urls') (items d') ->
        out_degree G' a = length urls')
  /\ (exists G, create_network_graph d = Ok G
                /\ (forall a u, Nx.has_edge G a u = Nx.has_edge G' a u)
                /\ (forall n, Nx.contains G n = Nx.contains G' n)
                /\ (forall n, Nx.node_type G n = Nx.node_type G' n)).
Proof.
  intros Hd Hrun.
  pose proof (DedupFacts.keys_eq d d' Hd) as Hkeys.
  destruct (BuildFacts.graph_exact_aux d' G' Hrun) as (He' & Hiff' & Hn').
  destruct (create_network_graph_spec d' G' Hrun) as (Hinv' & [Hkey' Hurl'] & _).
  assert (forall n, Nx.node_type G' n = Some "article" <-> In (Some n) (keys d')) as Hart'.
  { intros n. split; [|apply Hkey']. intros Hty.
    destruct (in_dec (DictFacts.key_eq_dec (K := text)) (Some n) (keys d'))
      as [Hin|Hnot]; [assumption|].
    rewrite (Hurl' n (NxFacts.node_type_contains G' n _ Hty) Hnot) in Hty.
    discriminate. }
  assert (forall a u, Nx.has_edge G' a u = true <->
                      exists urls, In (Some a, urls) (items d) /\ In u urls) as Hedge.
  { intros a u. rewrite Hiff', He'. now apply DedupFacts.targets_iff. }
  split; [exact Hedge|]. split; [intros n; now rewrite Hart', Hkeys|]. split.
  - intros Hwf a urls' Hin.
    assert (wf d') as Hwf' by (unfold wf; now rewrite Hkeys).
    destruct (DedupFacts.In_right d d' _ _ Hd Hin) as (v & Hv & Hnd & Hmem).
    unfold out_degree.
    assert (Nx.contains G' a = true) as Hc.
    { apply Hn'. left. unfold keys. now apply (in_map fst) in Hin. }
    unfold Nx.contains in Hc. rewrite <- (inv_succ G' Hinv') in Hc.
    destruct (DictFacts.getitem_mem _ _ Hc) as (su & Hsu & _). rewrite Hsu.
    apply DedupFacts.same_members_length.
    + apply (inv_wf_adj G' Hinv' a su). now apply DictFacts.get_In.
    + exact Hnd.
    + intros x. rewrite <- DictFacts.mem_In_keys.
      assert (mem x su = Nx.has_edge G' a x) as ->
        by (unfold Nx.has_edge; now rewrite Hsu).
      rewrite Hedge, Hmem. split.
      * intros (urls & Hin2 & Hx).
        pose proof (DictFacts.In_get d _ _ Hwf Hin2) as E1.
        pose proof (DictFacts.In_get d _ _ Hwf Hv) as E2.
        rewrite E1 in E2. injection E2 as <-. exact Hx.
      * intros Hx. now exists v.
  - destruct (proj2 (BuildFacts.graph_outcome_aux d)) as [G HG].
    { rewrite <- Hkeys. apply (proj1 (BuildFacts.graph_outcome_aux d')). now exists G'. }
    exists G. split; [exact HG|].
    destruct (BuildFacts.graph_exact_aux d G HG) as (He & Hiff & Hn).
    destruct (create_network_graph_spec d G HG) as (_ & [Hkey Hurl] & _).
    assert (forall n, Nx.contains G n = Nx.contains G' n) as Hcont.
    { intros n. apply eq_true_iff_eq. rewrite Hn, Hn', Hkeys.
      split; (intros [H|(a & urls & Hin & Hu)]; [now left|right; exists a]).
      - apply (proj2 (DedupFacts.targets_iff d d' a n Hd)). now exists urls.
      - apply (proj1 (DedupFacts.targets_iff d d' a n Hd)). now exists urls. }
    split; [|split; [exact Hcont|]].
    + intros a u. apply eq_true_iff_eq. now rewrite Hedge, Hiff, He.
    + intros n.
      destruct (in_dec (DictFacts.key_eq_dec (K := text)) (Some n) (keys d)) as [Hk|Hk].
      * rewrite (Hkey n Hk). symmetry. apply Hart'. now rewrite Hkeys.
      * destruct (Nx.contains G n) eqn:Hc.
        -- rewrite (Hurl n Hc Hk). symmetry. apply Hurl'; [now rewrite <- Hcont|].
           now rewrite Hkeys.
        -- pose proof Hc as Hc'. rewrite Hcont in Hc'.
           unfold Nx.node_type. unfold Nx.contains, mem in Hc, Hc'.
           destruct (get (Nx.node_ G) n); [discriminate|].
           now destruct (get (Nx.node_ G') n).
Qed.

Lemma graph_of_without_duplicates_witness :
  let d : dict text (list string) :=
    [(Some "A", ["https://helpedbyanerd.com/b"; "https://helpedbyanerd.com/c";
                 "https://helpedbyanerd.com/b"])] in
  let d' : dict text (list string) :=
    [(Some "A", ["https://helpedbyanerd.com/c"; "https://helpedbyanerd.com/b"])] in
  exists G',
    without_duplicates d d'
    /\ create_network_graph d' = Ok G'
    /\ out_degree G' "A" = 2
    /\ (forall a u, Nx.has_edge G' a u = true <->
                    exists urls, In (Some a, urls) (items d) /\ In u urls).
Proof.
  intros d d'. eexists.
  assert (without_duplicates d d') as Hd.
  { constructor; [|constructor]. split; [reflexivity|]. split.
    - repeat constructor; simpl; intuition discriminate.
    - intros x. simpl. tauto. }
  assert (wf d) as Hwf by (unfold wf; simpl; repeat constructor; intros []).
  split; [exact Hd|]. split; [vm_compute; reflexivity|].
  match goal with
  | |- out_degree ?G _ = _ /\ _ =>
      destruct (graph_of_without_duplicates d d' G Hd eq_refl) as (H1 & _ & H3 & _)
  end.
  split; [|exact H1].
  apply (H3 Hwf "A" ["https://helpedbyanerd.com/c"; "https://helpedbyanerd.com/b"]).
  left. reflexivity.
Defined.

Module DiagramMore.
Import DictFacts StrFacts.

Lemma resolved_edges_In ids mapping entry t l lt :
  In (t, l, lt) (resolved_edges ids mapping entry) -> t = fst entry /\ In l (snd entry).
Proof.
  unfold resolved_edges. intros Hin. apply in_flat_map in Hin as (link & Hl & Hin).
  destruct (mem _ ids); [|contradiction].
  destruct Hin as [[= <- <- <-]|[]]. now split.
Qed.

Lemma resolved_edges_NoDup ids mapping (t : text) links :
  NoDup links -> NoDup (resolved_edges ids mapping (t, links)).
Proof.
  unfold resolved_edges. cbn [fst snd].
  induction 1 as [|l links Hnot ND IH]; cbn [flat_map]; [constructor|].
  apply NoDup_app; [|assumption|].
  - destruct (mem _ ids); repeat constructor. intros [].
  - intros [[t' l'] lt'] Hhead Htail.
    destruct (mem _ ids); [|contradiction]. destruct Hhead as [[= <- <- <-]|[]].
    apply in_flat_map in Htail as (link & Hl & Hin).
    destruct (mem _ ids); [|contradiction]. destruct Hin as [[= ->]|[]].
    contradiction.
Qed.

Lemma diagram_edges_NoDup ids mapping (d : dict text (list string)) :
  wf d -> (forall k v, In (k, v) d -> NoDup v) ->
  NoDup (flat_map (resolved_edges ids mapping) d).
Proof.
  unfold wf, keys. induction d as [|[k v] d IH]; intros Hwf Hlists; cbn [flat_map].
  - constructor.
  - cbn [map fst] in Hwf. inversion Hwf as [|? ? Hnot Hwf']; subst.
    apply NoDup_app.
    + apply resolved_edges_NoDup, (Hlists k v). now left.
    + apply IH; [assumption|]. intros k' v' Hin. apply (Hlists k' v'). now right.
    + intros [[t l] lt] Hhead Htail.
      apply resolved_edges_In in Hhead as [-> _]. cbn [fst] in *.
      apply in_flat_map in Htail as ([k' v'] & Hin & He).
      apply resolved_edges_In in He as [E _]. cbn [fst] in E. subst k'.
      apply Hnot. now apply (in_map fst) in Hin.
Qed.

Lemma append_cancel_nil (a x : string) : a ++ x = a -> x = EmptyString.
Proof. induction a as [|c a IH]; simpl; [auto|]. intros [= E]. auto. Qed.

Lemma statements_empty ids (es : list (text * string * text)) :
  concat_lines (map (statement_of ids) es) = EmptyString -> es = [].
Proof.
  destruct es as [|[[t l] lt] es]; [reflexivity|]. simpl. discriminate.
Qed.

Lemma limited_loop (d : dict text (list string)) n : forall done rest,
  wf d -> d = (done ++ rest)%list ->
  for_each (fun k acc => v <- getitem d k ;; Ok (set k v acc))
           (firstn n (keys rest)) done
  = Ok (done ++ firstn n rest)%list.
Proof.
  induction n as [|n IH]; intros done rest Hwf Hd.
  - simpl. now rewrite app_nil_r.
  - destruct rest as [|[k v] rest]; [simpl; now rewrite app_nil_r|].
    change (keys ((k, v) :: rest)) with (k :: keys rest).
    cbn [firstn for_each].
    assert (In (k, v) d) as Hin by (rewrite Hd; apply in_or_app; right; now left).
    assert (getitem d k = Ok v) as Hg
      by (unfold getitem; now rewrite (In_get d k v Hwf Hin)).
    rewrite Hg. cbn [bind].
    assert (mem k done = false) as Hfresh.
    { destruct (mem k done) eqn:Hm; [|reflexivity]. exfalso.
      apply mem_In_keys in Hm. unfold wf, keys in *. rewrite Hd, map_app in Hwf.
      apply NoDup_remove_2 in Hwf. apply Hwf, in_or_app. now left. }
    rewrite set_fresh by assumption.
    rewrite (IH (done ++ [(k, v)])%list rest Hwf)
      by (rewrite Hd, <- app_assoc; reflexivity).
    now rewrite <- app_assoc.
Qed.

End DiagramMore.

(** X13.  Deduplicating the lists changes no edge statement of the diagram:
    the identifiers are the same, a statement is emitted from the
    deduplicated lists exactly when it is emitted from the lists as
    extracted, and after deduplication no pair of a title and a link is
    emitted twice. *)
Theorem diagram_of_without_duplicates (d d' : dict text (list string))
    (mapping : dict text text) :
  without_duplicates d d' ->
  article_ids d' = article_ids d
  /\ (forall line, In line (diagram_statements d' mapping) <->
                   In line (diagram_statements d mapping))
  /\ (wf d -> NoDup (diagram_edges d' mapping)).
Proof.
  intros Hd. pose proof (DedupFacts.keys_eq d d' Hd) as Hkeys.
  assert (article_ids d' = article_ids d) as Hids
    by (unfold article_ids; now rewrite Hkeys).
  split; [exact Hids|]. split.
  - intros line. rewrite !DiagramFacts.diagram_statements_In, Hids, Hkeys.
    split; intros (t & links & l & Hin & Hl & Hrest).
    + destruct (DedupFacts.In_right d d' t links Hd Hin) as (v & Hv & _ & Hmem).
      exists t, v, l. split; [assumption|]. split; [now apply Hmem|assumption].
    + destruct (DedupFacts.In_left d d' t links Hd Hin) as (v' & Hv & _ & Hmem).
      exists t, v', l. split; [assumption|]. split; [now apply Hmem|assumption].
  - intros Hwf. unfold diagram_edges, items. apply DiagramMore.diagram_edges_NoDup.
    + unfold wf. now rewrite Hkeys.
    + intros k v' Hin. now destruct (DedupFacts.In_right d d' k v' Hd Hin) as (v & _ & Hnd & _).
Qed.

Lemma diagram_of_without_duplicates_witness :
  let d : dict text (list string) :=
    [(Some "A", []);
     (Some "B", ["https://helpedbyanerd.com/a"; "https://helpedbyanerd.com/a"])] in
  let d' : dict text (list string) :=
    [(Some "A", []); (Some "B", ["https://helpedbyanerd.com/a"])] in
  let mp : dict text text := [(Some "https://helpedbyanerd.com/a", Some "A")] in
  without_duplicates d d'
  /\ diagram_statements d mp
     = [edge_statement "A1" (Some "B") "A0" (Some "A");
        edge_statement "A1" (Some "B") "A0" (Some "A")]
  /\ diagram_statements d' mp = [edge_statement "A1" (Some "B") "A0" (Some "A")]
  /\ (forall line, In line (diagram_statements d' mp) <->
                   In line (diagram_statements d mp)).
Proof.
  intros d d' mp.
  assert (without_duplicates d d') as Hd.
  { constructor; [|constructor; [|constructor]].
    - split; [reflexivity|]. split; [constructor|]. intros x. simpl. tauto.
    - split; [reflexivity|]. split.
      + repeat constructor. intros [].
      + intros x. simpl. tauto. }
  split; [exact Hd|]. split; [reflexivity|]. split; [reflexivity|].
  exact (proj1 (proj2 (diagram_of_without_duplicates d d' mp Hd))).
Defined.

(** X14.  The diagram is the bare header exactly when no link of any list
    resolves to a key of the article dictionary: unresolved links leave no
    trace, and nothing else is ever dropped. *)
Theorem diagram_header_only (internal_links : dict text (list string))
    (mapping : dict text text) :
  generate_mermaid_diagram internal_links mapping = Ok mermaid_header
  <->
  (forall title links link,
     In (title, links) (items internal_links) -> In link links ->
     ~ In (get_default mapping (Some link) (Some "Unknown Article"))
          (keys internal_links)).
Proof.
  rewrite DiagramFacts.generate_mermaid_diagram_text. split.
  - intros E title links link Hin Hl Hkey.
    assert (mermaid_header ++ concat_lines (diagram_statements internal_links mapping)
            = mermaid_header) as E' by congruence.
    clear E. apply DiagramMore.append_cancel_nil in E'. rename E' into E.
    unfold diagram_statements in E.
    apply DiagramMore.statements_empty in E.
    assert (In (statement_of (article_ids internal_links)
                  (title, link, get_default mapping (Some link) unknown_article))
               (diagram_statements internal_links mapping)) as Hs.
    { apply DiagramFacts.diagram_statements_In. now exists title, links, link. }
    unfold diagram_statements in Hs. rewrite E in Hs. exact Hs.
  - intros Hnone.
    destruct (diagram_statements internal_links mapping) as [|line ls] eqn:E.
    + reflexivity.
    + exfalso.
      assert (In line (diagram_statements internal_links mapping)) as Hin
        by (rewrite E; now left).
      apply DiagramFacts.diagram_statements_In in Hin
        as (title & links & link & H1 & H2 & H3 & _).
      exact (Hnone title links link H1 H2 H3).
Qed.

(** X15.  [limited_data] is the first five entries of the article
    dictionary, in its order, all of them when there are fewer than six;
    the lookups of its comprehension never fail. *)
Theorem limited_data_firstn (articles_internal_links : dict text (list string)) :
  wf articles_internal_links ->
  limited_data articles_internal_links = Ok (firstn 5 articles_internal_links)
  /\ (length articles_internal_links <= 5 ->
        limited_data articles_internal_links = Ok articles_internal_links).
Proof.
  intros Hwf.
  assert (limited_data articles_internal_links = Ok (firstn 5 articles_internal_links)) as H.
  { unfold limited_data.
    apply (DiagramMore.limited_loop articles_internal_links 5 [] articles_internal_links Hwf).
    reflexivity. }
  split; [exact H|]. intros Hlen. rewrite H. now rewrite firstn_all2.
Qed.

Lemma limited_data_firstn_witness :
  let d : dict text (list string) :=
    [(Some "1", []); (Some "2", []); (Some "3", []); (Some "4", []);
     (Some "5", ["https://helpedbyanerd.com/6"]); (Some "6", [])] in
  wf d
  /\ limited_data d
     = Ok [(Some "1", []); (Some "2", []); (Some "3", []); (Some "4", []);
           (Some "5", ["https://helpedbyanerd.com/6"])].
Proof.
  intros d.
  assert (wf d) as Hwf.
  { unfold wf. simpl. repeat constructor; simpl; intuition discriminate. }
  split; [exact Hwf|]. exact (proj1 (limited_data_firstn d Hwf)).
Defined.

(** * The traces *)

Module TraceFacts.
Import DictFacts.

Section Traces.
Context {C : Type}.
Variable pos : dict string (C * C).
Variable G : Nx.DiGraph.

Lemma getitem_ok {V} (d : dict string V) k v :
  getitem d k = Ok v -> get d k = Some v.
Proof. unfold getitem. destruct (get d k); [now intros [= ->]|discriminate]. Qed.

Lemma getitem_raise {V} (d : dict string V) k e :
  getitem d k = Raise e -> e = KeyError /\ mem k d = false.
Proof.
  unfold getitem, mem. destruct (get d k); [discriminate|].
  intros [= <-]. now split.
Qed.

Lemma trace_edge_raise e acc x : trace_edge pos e acc = Raise x -> x = KeyError.
Proof.
  unfold trace_edge.
  destruct (getitem pos (fst e)) as [p0|x0] eqn:E0; simpl.
  - destruct (getitem pos (snd e)) as [p1|x1] eqn:E1; simpl; [discriminate|].
    intros [= <-]. now apply getitem_raise in E1.
  - intros [= <-]. now apply getitem_raise in E0.
Qed.

Lemma trace_node_raise n acc x : trace_node G pos n acc = Raise x -> x = KeyError.
Proof.
  unfold trace_node.
  destruct (getitem pos n) as [p|x0] eqn:E0; simpl.
  - destruct (getitem (Nx.succ_ G) n) as [nb|x1] eqn:E1; simpl; [discriminate|].
    intros [= <-]. now apply getitem_raise in E1.
  - intros [= <-]. now apply getitem_raise in E0.
Qed.

Lemma trace_edges_run es : forall acc r,
  for_each (trace_edge pos) es acc = Ok r ->
  edge_x r = (edge_x acc ++ flat_map (edge_points fst pos) es)%list
  /\ edge_y r = (edge_y acc ++ flat_map (edge_points snd pos) es)%list.
Proof.
  induction es as [|e es IH]; intros acc r Hrun; simpl in Hrun.
  - injection Hrun as <-. simpl. now rewrite !app_nil_r.
  - unfold trace_edge at 1 in Hrun.
    destruct (getitem pos (fst e)) as [p0|] eqn:E0; simpl in Hrun; [|discriminate].
    destruct (getitem pos (snd e)) as [p1|] eqn:E1; simpl in Hrun; [|discriminate].
    apply IH in Hrun as [Hx Hy]. cbn [edge_x edge_y] in Hx, Hy.
    apply getitem_ok in E0, E1.
    cbn [flat_map]. unfold edge_points at 1 3. rewrite E0, E1. cbn [option_map].
    rewrite Hx, Hy, <- !app_assoc. now split.
Qed.

Lemma trace_edges_ok es : forall acc,
  (forall e, In e es -> mem (fst e) pos = true /\ mem (snd e) pos = true) ->
  exists r, for_each (trace_edge pos) es acc = Ok r.
Proof.
  induction es as [|e es IH]; intros acc Hall; simpl; [now exists acc|].
  destruct (Hall e (or_introl eq_refl)) as [H0 H1].
  destruct (getitem_mem pos _ H0) as (p0 & _ & E0).
  destruct (getitem_mem pos _ H1) as (p1 & _ & E1).
  unfold trace_edge at 1. rewrite E0, E1. cbn [bind].
  apply IH. intros e' He'. apply Hall. now right.
Qed.

Lemma trace_nodes_run ns : forall acc r,
  for_each (trace_node G pos) ns acc = Ok r ->
  (forall n, In n ns -> mem n pos = true)
  /\ map Some (node_x r)
     = (map Some (node_x acc) ++ map (fun n => option_map fst (get pos n)) ns)%list
  /\ map Some (node_y r)
     = (map Some (node_y acc) ++ map (fun n => option_map snd (get pos n)) ns)%list
  /\ node_adjacencies r = (node_adjacencies acc ++ map (out_degree G) ns)%list
  /\ node_text r
     = (node_text acc ++ map (fun n => connections_text n (out_degree G n)) ns)%list.
Proof.
  induction ns as [|n ns IH]; intros acc r Hrun; simpl in Hrun.
  - injection Hrun as <-. simpl. rewrite !app_nil_r. repeat split. intros n [].
  - unfold trace_node at 1 in Hrun.
    destruct (getitem pos n) as [p|] eqn:E0; simpl in Hrun; [|discriminate].
    destruct (getitem (Nx.succ_ G) n) as [nb|] eqn:E1; simpl in Hrun; [|discriminate].
    apply IH in Hrun as (Hm & Hx & Hy & Ha & Ht).
    cbn [node_x node_y node_adjacencies node_text] in Hx, Hy, Ha, Ht.
    apply getitem_ok in E0, E1.
    assert (out_degree G n = length (keys nb)) as Hdeg
      by (unfold out_degree; now rewrite E1).
    split; [|split; [|split; [|split]]].
    + intros m [<-|Hin]; [unfold mem; now rewrite E0|now apply Hm].
    + rewrite Hx, map_app, <- app_assoc. cbn [map app]. now rewrite E0.
    + rewrite Hy, map_app, <- app_assoc. cbn [map app]. now rewrite E0.
    + rewrite Ha, <- app_assoc. cbn [map app]. now rewrite Hdeg.
    + rewrite Ht, <- app_assoc. cbn [map app]. now rewrite Hdeg.
Qed.

Lemma trace_nodes_ok ns : forall acc,
  (forall n, In n ns -> mem n pos = true /\ mem n (Nx.succ_ G) = true) ->
  exists r, for_each (trace_node G pos) ns acc = Ok r.
Proof.
  induction ns as [|n ns IH]; intros acc Hall; simpl; [now exists acc|].
  destruct (Hall n (or_introl eq_refl)) as [H0 H1].
  destruct (getitem_mem pos _ H0) as (p & _ & E0).
  destruct (getitem_mem (Nx.succ_ G) _ H1) as (nb & _ & E1).
  unfold trace_node at 1. rewrite E0, E1. cbn [bind].
  apply IH. intros n' Hn'. apply Hall. now right.
Qed.

End Traces.

End TraceFacts.

(** X16.  For a graph built by [create_network_graph], [build_traces]
    returns exactly when the layout has a position for every node, and
    raises nothing but [KeyError].  When it returns, the edge trace has
    three entries per edge, the two end points and a [None] separator, in
    the order of the edges; the node trace has one entry per node, in the
    order of the nodes, and the number of connections of a node is its
    out-degree. *)
Theorem build_traces_outcome {C : Type} (data : dict text (list string))
    (G : Nx.DiGraph) (pos : dict string (C * C)) :
  create_network_graph data = Ok G ->
  ((exists r, build_traces G pos = Ok r) <->
   (forall n, Nx.contains G n = true -> mem n pos = true))
  /\ (forall e, build_traces G pos = Raise e -> e = KeyError)
  /\ (forall et nt, build_traces G pos = Ok (et, nt) ->
        edge_x et = flat_map (edge_points fst pos) (Nx.edges G)
        /\ edge_y et = flat_map (edge_points snd pos) (Nx.edges G)
        /\ length (edge_x et) = 3 * length (Nx.edges G)
        /\ map Some (node_x nt)
           = map (fun n => option_map fst (get pos n)) (keys (Nx.node_ G))
        /\ map Some (node_y nt)
           = map (fun n => option_map snd (get pos n)) (keys (Nx.node_ G))
        /\ node_adjacencies nt = map (out_degree G) (keys (Nx.node_ G))
        /\ node_text nt
           = map (fun n => connections_text n (out_degree G n)) (keys (Nx.node_ G))).
Proof.
  intros Hrun.
  destruct (BuildFacts.graph_exact_aux data G Hrun) as (He & Hiff & Hn).
  destruct (create_network_graph_spec data G Hrun) as (Hinv & _ & _).
  unfold build_traces. split; [split|split].
  - intros [r Hr] n Hc.
    destruct (for_each (trace_edge pos) _ _) as [et|]; simpl in Hr; [|discriminate].
    destruct (for_each (trace_node G pos) _ _) as [nt|] eqn:En; simpl in Hr; [|discriminate].
    apply TraceFacts.trace_nodes_run in En as (Hm & _). apply Hm.
    now apply DictFacts.mem_In_keys.
  - intros Hcover.
    destruct (TraceFacts.trace_edges_ok pos (Nx.edges G) {| edge_x := []; edge_y := [] |})
      as [et ->].
    { intros [u v] Hin. apply He in Hin as (urls & Hin & Hu). cbn [fst snd].
      split; apply Hcover, Hn.
      - left. unfold keys. now apply (in_map fst) in Hin.
      - right. now exists (Some u), urls. }
    destruct (TraceFacts.trace_nodes_ok pos G (keys (Nx.node_ G))
                {| node_x := []; node_y := []; node_adjacencies := []; node_text := [] |})
      as [nt ->].
    { intros n Hin. apply DictFacts.mem_In_keys in Hin.
      split; [now apply Hcover|]. now rewrite (inv_succ G Hinv). }
    now exists (et, nt).
  - intros e Hr.
    destruct (for_each (trace_edge pos) _ _) as [et|x] eqn:Ee; simpl in Hr.
    + destruct (for_each (trace_node G pos) _ _) as [nt|y] eqn:En; simpl in Hr;
        [discriminate|].
      injection Hr as <-.
      apply ExtractFacts.for_each_raise in En as (n & s0 & _ & Hx).
      now apply TraceFacts.trace_node_raise in Hx.
    + injection Hr as <-.
      apply ExtractFacts.for_each_raise in Ee as (n & s0 & _ & Hx).
      now apply TraceFacts.trace_edge_raise in Hx.
  - intros et nt Hr.
    destruct (for_each (trace_edge pos) _ _) as [et0|] eqn:Ee; simpl in Hr; [|discriminate].
    destruct (for_each (trace_node G pos) _ _) as [nt0|] eqn:En; simpl in Hr; [|discriminate].
    injection Hr as <- <-.
    apply TraceFacts.trace_edges_run in Ee as [Hx Hy].
    apply TraceFacts.trace_nodes_run in En as (_ & Hnx & Hny & Ha & Ht).
    cbn in Hx, Hy, Hnx, Hny, Ha, Ht.
    split; [exact Hx|]. split; [exact Hy|]. split.
    + rewrite Hx. clear. induction (Nx.edges G) as [|e es IH]; [reflexivity|].
      cbn [flat_map]. rewrite length_app, IH. simpl. lia.
    + repeat split; assumption.
Qed.

Lemma build_traces_outcome_witness :
  let data : dict text (list string) := [(Some "A", ["https://helpedbyanerd.com/b"])] in
  let pos : dict string (nat * nat) :=
    [("A", (1, 2)); ("https://helpedbyanerd.com/b", (3, 4))] in
  exists G,
    create_network_graph data = Ok G
    /\ build_traces G pos
       = Ok ({| edge_x := [Some 1; Some 3; None]; edge_y := [Some 2; Some 4; None] |},
             {| node_x := [1; 3]; node_y := [2; 4]; node_adjacencies := [1; 0];
                node_text := ["A<br># of connections: 1";
                              "https://helpedbyanerd.com/b<br># of connections: 0"] |})
    /\ (forall e, build_traces G pos = Raise e -> e = KeyError).
Proof.
  intros data pos. eexists. split; [vm_compute; reflexivity|].
  split; [vm_compute; reflexivity|].
  match goal with
  | |- forall e, build_traces ?G _ = _ -> _ =>
      exact (proj1 (proj2 (build_traces_outcome data G pos eq_refl)))
  end.
Defined.

Module AlignFacts.
Import DictFacts Nx NxFacts.

(** The successor dictionary lists the nodes in the order of the node
    dictionary. *)
Lemma add_node_aligned n attr G G' :
  graph_inv G -> keys (succ_ G) = keys (node_ G) ->
  add_node (Some n) attr G = Ok G' ->
  keys (succ_ G') = keys (node_ G').
Proof.
  intros Hinv Hal. unfold add_node.
  destruct (mem n (succ_ G)) eqn:Hm; cbn [negb].
  - destruct (getitem (node_ G) n) as [old|]; simpl; [|discriminate].
    intros [= <-]. cbn [node_ succ_].
    rewrite keys_set_mem by (now rewrite <- (inv_succ G Hinv)). assumption.
  - intros [= <-]. cbn [node_ succ_].
    rewrite !keys_set_fresh; [now rewrite Hal| |assumption].
    now rewrite <- (inv_succ G Hinv).
Qed.

Lemma add_edge_aligned u v G G' :
  graph_inv G -> keys (succ_ G) = keys (node_ G) ->
  contains G u = true -> contains G v = true ->
  add_edge (Some u) (Some v) G = Ok G' ->
  keys (succ_ G') = keys (node_ G').
Proof.
  intros Hinv Hal Hu Hv. unfold contains in Hu, Hv.
  pose proof (inv_succ G Hinv) as Hs.
  unfold add_edge, ensure_node. rewrite !Hs, Hu. cbn [negb bind].
  rewrite Hs, Hv. cbn [negb bind].
  destruct (getitem (succ_ G) u) as [su|]; simpl; [|discriminate].
  destruct (getitem (pred_ G) v) as [pv|]; simpl; [|discriminate].
  intros [= <-]. cbn [node_ succ_].
  rewrite keys_set_mem by (now rewrite Hs). assumption.
Qed.

Lemma link_target_aligned a url G G' :
  graph_inv G -> keys (succ_ G) = keys (node_ G) -> contains G a = true ->
  link_target (Some a) url G = Ok G' ->
  keys (succ_ G') = keys (node_ G').
Proof.
  intros Hinv Hal Ha. unfold link_target, add_url_node.
  destruct (contains G url) eqn:Hurl; cbn [negb bind].
  - now apply add_edge_aligned.
  - destruct (add_node_spec url [("type", "url")] G Hinv)
      as (G1 & E1 & Hinv1 & Hc1 & _).
    rewrite E1. cbn [bind].
    apply add_edge_aligned; try assumption.
    + now apply (add_node_aligned url [("type", "url")] G G1).
    + apply Hc1. now left.
    + apply Hc1. now right.
Qed.

Lemma link_targets_aligned a urls : forall G G',
  graph_inv G -> keys (succ_ G) = keys (node_ G) -> contains G a = true ->
  for_each (link_target (Some a)) urls G = Ok G' ->
  keys (succ_ G') = keys (node_ G').
Proof.
  induction urls as [|url urls IH]; intros G G' Hinv Hal Ha Hrun; cbn [for_each] in Hrun.
  - now injection Hrun as <-.
  - destruct (link_target_spec a url G Hinv Ha) as (G1 & E & Hinv1 & Hc1 & _).
    rewrite E in Hrun. cbn [bind] in Hrun.
    apply (IH G1 G'); try assumption.
    + now apply (link_target_aligned a url G G1).
    + apply Hc1. now left.
Qed.

Lemma build_aligned data : forall G G',
  graph_inv G -> keys (succ_ G) = keys (node_ G) ->
  for_each link_article data G = Ok G' ->
  keys (succ_ G') = keys (node_ G').
Proof.
  induction data as [|[article urls] data IH]; intros G G' Hinv Hal Hrun.
  - now injection Hrun as <-.
  - cbn [for_each] in Hrun. destruct article as [a|]; [|discriminate].
    destruct (link_article_spec a urls G Hinv) as (G1 & E & Hinv1 & _).
    change (bind (link_article (Some a, urls) G)
                 (fun s' => for_each link_article data s') = Ok G') in Hrun.
    rewrite E in Hrun. cbn [bind] in Hrun.
    apply (IH G1 G' Hinv1); [|assumption].
    unfold link_article in E.
    destruct (add_node_spec a [("type", "article")] G Hinv)
      as (G0 & E0 & Hinv0 & Hc0 & _).
    rewrite E0 in E. cbn [bind] in E.
    apply (link_targets_aligned a urls G0 G1); try assumption.
    + now apply (add_node_aligned a [("type", "article")] G G0).
    + apply Hc0. now right.
Qed.

Lemma degree_sum G (l : dict string (dict string attrs)) :
  (forall u su, In (u, su) l -> get (succ_ G) u = Some su) ->
  list_sum (map (out_degree G) (keys l))
  = length (flat_map (fun us => map (fun v => (fst us, v)) (keys (snd us))) l).
Proof.
  induction l as [|[u su] l IH]; intros Hall; [reflexivity|].
  cbn [keys map fst flat_map snd]. rewrite length_app, length_map.
  specialize (IH (fun u' su' Hin => Hall u' su' (or_intror Hin))).
  unfold keys in IH at 1. cbn [list_sum fold_right]. unfold list_sum in IH.
  rewrite IH. f_equal. unfold out_degree. now rewrite (Hall u su (or_introl eq_refl)).
Qed.

End AlignFacts.

(** X17.  In a graph built by [create_network_graph] every node is listed
    once, and the numbers of connections that [build_traces] reports, one
    per node, add up to the number of edges. *)
Theorem connections_add_up (data : dict text (list string)) (G : Nx.DiGraph) :
  create_network_graph data = Ok G ->
  NoDup (keys (Nx.node_ G))
  /\ list_sum (map (out_degree G) (keys (Nx.node_ G))) = length (Nx.edges G).
Proof.
  intros Hrun.
  destruct (create_network_graph_spec data G Hrun) as (Hinv & _ & _).
  assert (keys (Nx.succ_ G) = keys (Nx.node_ G)) as Hal
    by (apply (AlignFacts.build_aligned data Nx.empty G NxFacts.empty_inv eq_refl Hrun)).
  rewrite <- Hal. split; [apply (inv_wf_succ G Hinv)|].
  apply AlignFacts.degree_sum. intros u su Hin.
  apply DictFacts.In_get; [apply (inv_wf_succ G Hinv)|assumption].
Qed.

Lemma connections_add_up_witness :
  let data : dict text (list string) :=
    [(Some "A", ["https://helpedbyanerd.com/b"; "https://helpedbyanerd.com/c"]);
     (Some "https://helpedbyanerd.com/b", ["https://helpedbyanerd.com/c"])] in
  exists G,
    create_network_graph data = Ok G
    /\ map (out_degree G) (keys (Nx.node_ G)) = [2; 1; 0]
    /\ list_sum (map (out_degree G) (keys (Nx.node_ G))) = length (Nx.edges G).
Proof.
  intros data. eexists. split; [vm_compute; reflexivity|].
  split; [reflexivity|].
  match goal with
  | |- list_sum (map (out_degree ?G) _) = _ =>
      exact (proj2 (connections_add_up data G eq_refl))
  end.
Defined.

(** * Provenance of the recorded lists *)

(** X18.  When [extract_content] returns, every list in the article
    dictionary is the list of internal links of the body of an item with
    that title: each of its links is a piece of that body that passed the
    filter. *)
Theorem extracted_lists_provenance tree al l2t t links :
  extract_content tree = Ok (al, l2t) ->
  In (t, links) (items al) ->
  exists item b,
    In item (items_of tree)
    /\ title (item_record item) = t
    /\ body (item_record item) = Some b
    /\ links = internal_urls_of (Re.findall_str b)
    /\ forall l, In l links ->
         Str.is_substring l b
         /\ is_internal_and_not_image l = true
         /\ Str.contains "empfiehlt" l = false.
Proof.
  rewrite extract_content_eq. fold (items_of tree). intros Hrun Hin.
  assert (forall its st st',
            for_each extract_item its st = Ok st' ->
            forall t links, In (t, links) (fst st') ->
              In (t, links) (fst st)
              \/ exists item b,
                   In item its /\ title (item_record item) = t
                   /\ body (item_record item) = Some b
                   /\ links = internal_urls_of (Re.findall_str b)) as Hgen.
  { induction its as [|it its IH]; simpl; intros st st' Hr t0 links0 Hin0.
    - injection Hr as <-. now left.
    - destruct (extract_item it st) as [st1|e] eqn:E; simpl in Hr; [|discriminate].
      apply ExtractFacts.extract_item_ok in E as (b & Hb & ->).
      destruct (IH _ _ Hr t0 links0 Hin0) as [Hold|(item & b' & Hi & H1 & H2 & H3)].
      + cbn [fst] in Hold. apply DictFacts.In_set in Hold as [[= -> ->]|Hold].
        * right. exists it, b. repeat split; auto.
        * now left.
      + right. exists item, b'. repeat split; auto. }
  destruct (Hgen _ _ _ Hrun t links Hin) as [[]|(item & b & Hi & H1 & H2 & H3)].
  exists item, b. repeat split; try assumption; subst links;
    unfold internal_urls_of in H; apply filter_In in H as [Hf Hk].
  - eapply ReFacts.findall_from_substring, Hf.
  - now apply andb_true_iff in Hk as [Hk _].
  - apply andb_true_iff in Hk as [_ Hk]. now apply negb_true_iff in Hk.
Qed.

Lemma extracted_lists_provenance_witness :
  let b := Elem "item" None
             [Elem "title" (Some "B") [];
              Elem content_tag (Some "read https://helpedbyanerd.com/a first") []] in
  let tree := {| getroot := Elem "rss" None [Elem "channel" None [b]] |} in
  let al : dict text (list string) := [(Some "B", ["https://helpedbyanerd.com/a"])] in
  let l2t : dict text text := [(Some "No Link", Some "B")] in
  extract_content tree = Ok (al, l2t)
  /\ exists item body0,
       In item (items_of tree)
       /\ title (item_record item) = Some "B"
       /\ body (item_record item) = Some body0
       /\ ["https://helpedbyanerd.com/a"] = internal_urls_of (Re.findall_str body0)
       /\ forall l, In l ["https://helpedbyanerd.com/a"] ->
            Str.is_substring l body0
            /\ is_internal_and_not_image l = true
            /\ Str.contains "empfiehlt" l = false.
Proof.
  intros b tree al l2t.
  assert (extract_content tree = Ok (al, l2t)) as H by (vm_compute; reflexivity).
  split; [exact H|].
  apply (extracted_lists_provenance tree al l2t (Some "B") _ H).
  left. reflexivity.
Defined.

